(** * PageRank (chezslice/Pagerank, src/Pagerank/Pagerank.py)

    A shallow embedding of [crawl], [transition_model], [sample_pagerank],
    [iterate_pagerank] and [main].  Python floats are modelled by exact rationals [Q];
    Python dictionaries by association lists in insertion order (the order
    in which the source iterates them); sets of links by duplicate-free
    lists; Python exceptions by the [Err] branch of a result monad.  The
    [while] loop of [iterate_pagerank] runs on fuel ([None] when it runs
    out); its passes are related to an in-place (Gauss-Seidel) map on rank
    vectors, which is how termination for damping below 1 is proved. *)

From Stdlib Require Import String Bool Arith ZArith Lia List.
From Stdlib Require Import QArith Qabs Qround Lqa.
Import ListNotations.

(** ** Exceptions and the result monad *)

Inductive exn : Type :=
| KeyError
| IndexError
| ZeroDivisionError
| ValueError
| OSError.

Inductive result (A : Type) : Type :=
| Ok : A -> result A
| Err : exn -> result A.
Arguments Ok {A} _.
Arguments Err {A} _.

Definition bind {A B : Type} (m : result A) (k : A -> result B) : result B :=
  match m with
  | Ok a => k a
  | Err e => Err e
  end.

Notation "x <- m ;; k" := (bind m (fun x => k))
  (at level 61, m at next level, right associativity).

(** [for x in l: s = body(s, x)] where the body may raise. *)
Fixpoint fold_m {A S : Type} (f : S -> A -> result S) (l : list A) (s : S)
  : result S :=
  match l with
  | [] => Ok s
  | x :: l' => s' <- f s x ;; fold_m f l' s'
  end.

(** Float arithmetic, computed exactly on rationals kept in lowest terms. *)
Definition fadd (a b : Q) : Q := Qred (a + b).
Definition fsub (a b : Q) : Q := Qred (a - b).
Definition fmul (a b : Q) : Q := Qred (a * b).

(** Python's [a / b] on numbers: [ZeroDivisionError] when [b] is zero. *)
Definition pydiv (a b : Q) : result Q :=
  if Qeq_bool b 0 then Err ZeroDivisionError else Ok (Qred (a / b)).

(** [len(x)] as a number usable in float arithmetic. *)
Definition qlen {A : Type} (l : list A) : Q := inject_Z (Z.of_nat (length l)).

(** ** Pages, dictionaries and the link graph *)

Definition page := string.

(** A Python dict with page keys, in insertion order. *)
Definition dict (V : Type) := list (page * V).

Definition keys {V : Type} (d : dict V) : list page := map fst d.
Definition values {V : Type} (d : dict V) : list V := map snd d.

Fixpoint lookup {V : Type} (k : page) (d : dict V) : option V :=
  match d with
  | [] => None
  | (k', v) :: d' => if String.eqb k k' then Some v else lookup k d'
  end.

(** [d[k]] *)
Definition getitem {V : Type} (d : dict V) (k : page) : result V :=
  match lookup k d with
  | Some v => Ok v
  | None => Err KeyError
  end.

Fixpoint replace {V : Type} (k : page) (v : V) (d : dict V) : dict V :=
  match d with
  | [] => []
  | (k', v') :: d' =>
      if String.eqb k k' then (k', v) :: d' else (k', v') :: replace k v d'
  end.

(** [d[k] = v]: an existing key keeps its position, a new one is appended. *)
Definition setitem {V : Type} (d : dict V) (k : page) (v : V) : dict V :=
  match lookup k d with
  | Some _ => replace k v d
  | None => d ++ [(k, v)]
  end.

(** [dict(zip(ks, vs))] *)
Definition dict_zip {V : Type} (ks : list page) (vs : list V) : dict V :=
  combine ks vs.

(** Membership test [x in s] on a set or a dict's keys view. *)
Definition mem (x : page) (s : list page) : bool := existsb (String.eqb x) s.

(** The crawled corpus: each page with the set of pages it links to. *)
Definition corpus_t := dict (list page).

(** The link-graph invariants that [crawl] establishes: keys are unique,
    every link set is duplicate-free, contains no self-link and only
    pages of the corpus. *)
Fixpoint nodupb (l : list page) : bool :=
  match l with
  | [] => true
  | x :: l' => negb (mem x l') && nodupb l'
  end.

Definition valid_corpusb (corpus : corpus_t) : bool :=
  let ks := keys corpus in
  nodupb ks &&
  forallb (fun '(p, links) =>
    nodupb links && negb (mem p links) && forallb (fun q => mem q ks) links)
    corpus.

Definition valid_corpus (corpus : corpus_t) : Prop := valid_corpusb corpus = true.

(** ** transition_model (lines 52-77) *)

Definition transition_model (corpus : corpus_t) (pg : page) (damping_factor : Q)
  : result (dict Q) :=
  links_of_page <- getitem corpus pg ;;
  match links_of_page with
  | _ :: _ =>
      base <- pydiv (fsub 1 damping_factor) (qlen corpus) ;;
      let random_factor := repeat base (length corpus) in
      let specific_factor := dict_zip (keys corpus) random_factor in
      links <- pydiv damping_factor (qlen links_of_page) ;;
      fold_m (fun sf corpus_links =>
                v <- getitem sf corpus_links ;;
                Ok (setitem sf corpus_links (fadd v links)))
             links_of_page specific_factor
  | [] =>
      u <- pydiv 1 (qlen corpus) ;;
      Ok (dict_zip (keys corpus) (repeat u (length corpus)))
  end.

(** ** The random source (Python's [random] module)

    [random.choice(seq)] returns [seq[_randbelow(len(seq))]]; we take the
    drawn position as the source's number reduced below [len(seq)], so every
    position is a possible outcome.  [random.choices(population, weights)]
    accumulates the weights, rejects a non-positive total and bisects the
    cumulative weights at [random() * total], limited to positions below
    [len(population)]. *)

Record random_source : Type := {
  rs_below : nat;          (* the draw behind [random.choice] *)
  rs_random : nat -> Q     (* [random()] at loop iteration i *)
}.

Definition choice (seq : list page) (r : nat) : result page :=
  match seq with
  | [] => Err IndexError
  | x :: _ => Ok (nth (r mod List.length seq)%nat seq x)
  end.

Fixpoint accumulate (acc : Q) (ws : list Q) : list Q :=
  match ws with
  | [] => []
  | w :: ws' => fadd acc w :: accumulate (fadd acc w) ws'
  end.

(** [bisect.bisect_right(a, x, lo, hi)]; each round shrinks [hi - lo], so
    [hi] rounds suffice when [lo = 0]. *)
Fixpoint bisect_right (fuel : nat) (a : list Q) (x : Q) (lo hi : nat) : nat :=
  match fuel with
  | O => lo
  | S f =>
      if (lo <? hi)%nat then
        let mid := ((lo + hi) / 2)%nat in
        if negb (Qle_bool (nth mid a 0) x) then bisect_right f a x lo mid
        else bisect_right f a x (S mid) hi
      else lo
  end.

Definition choices (population : list page) (weights : list Q) (u : Q)
  : result page :=
  let n := List.length population in
  let cum_weights := accumulate 0 weights in
  if negb (List.length cum_weights =? n)%nat then Err ValueError else
  match rev cum_weights with
  | [] => Err IndexError
  | total :: _ =>
      if Qle_bool total 0 then Err ValueError else
      match population with
      | [] => Err IndexError
      | x :: _ =>
          let hi := (n - 1)%nat in
          Ok (nth (bisect_right hi cum_weights (fmul u total) 0 hi) population x)
      end
  end.

(** ** sample_pagerank (lines 80-106) *)

(** One iteration of the [for] loop (lines 99-101). *)
Definition sample_step (src : random_source) (corpus : corpus_t) (damping_factor : Q)
  (st : dict Z * page) (i : nat) : result (dict Z * page) :=
  let '(sample_ranks, corpus_page) := st in
  c <- getitem sample_ranks corpus_page ;;
  let sample_ranks := setitem sample_ranks corpus_page (c + 1)%Z in
  internation <- transition_model corpus corpus_page damping_factor ;;
  corpus_page <- choices (keys internation) (values internation) (rs_random src i) ;;
  Ok (sample_ranks, corpus_page).

(** Lines 88-101: the visit counters when the loop has finished. *)
Definition sample_counts (src : random_source) (corpus : corpus_t)
  (damping_factor : Q) (n : Z) : result (dict Z) :=
  let sample_ranks := dict_zip (keys corpus) (repeat 0%Z (List.length corpus)) in
  corpus_page <- choice (keys corpus) (rs_below src) ;;
  st <- fold_m (sample_step src corpus damping_factor)
                (seq 0 (Z.to_nat (n - 1)%Z)) (sample_ranks, corpus_page) ;;
  Ok (fst st).

(** Line 104: [{p: num_samples/n for p, num_samples in sample_ranks.items()}]. *)
Definition divide_counts (sample_ranks : dict Z) (n : Z) : result (dict Q) :=
  fold_m (fun acc '(p, num_samples) =>
            q <- pydiv (inject_Z num_samples) (inject_Z n) ;;
            Ok (acc ++ [(p, q)]))
         sample_ranks [].

Definition sample_pagerank (src : random_source) (corpus : corpus_t)
  (damping_factor : Q) (n : Z) : result (dict Q) :=
  sample_ranks <- sample_counts src corpus damping_factor n ;;
  divide_counts sample_ranks n.

(** ** iterate_pagerank (lines 108-146) *)

(** A float that may be [math.inf] (the initial per-page changes). *)
Inductive xfloat : Type :=
| Fin : Q -> xfloat
| Inf : xfloat.

(** [x > 0.001] *)
Definition exceeds_threshold (x : xfloat) : bool :=
  match x with
  | Inf => true
  | Fin q => negb (Qle_bool q (1 # 1000))
  end.

(** Lines 127-137: the [link_counter] of [pg], read from the current
    [interate_rank]. *)
Definition link_counter (corpus : corpus_t) (interate_rank : dict Q) (pg : page)
  : result Q :=
  fold_m (fun acc '(page_link, links) =>
            let links := match links with [] => keys corpus | _ => links end in
            if mem pg links then
              r <- getitem interate_rank page_link ;;
              q <- pydiv r (qlen links) ;;
              Ok (fadd acc q)
            else Ok acc)
         corpus 0.

(** Lines 126-144: the body of [for page in interate_rank.keys()]; it
    writes the new rank of [pg] into [interate_rank] itself. *)
Definition update_page (corpus : corpus_t) (damping_factor total : Q)
  (st : dict Q * dict xfloat) (pg : page) : result (dict Q * dict xfloat) :=
  let '(interate_rank, interate_changes) := st in
  lc <- link_counter corpus interate_rank pg ;;
  b <- pydiv (fsub 1 damping_factor) total ;;
  let new_rank := fadd b (fmul damping_factor lc) in
  old <- getitem interate_rank pg ;;
  let interate_changes := setitem interate_changes pg (Fin (Qabs (fsub new_rank old))) in
  Ok (setitem interate_rank pg new_rank, interate_changes).

(** Lines 125-144: one pass over the keys of [interate_rank]. *)
Definition iterate_pass (corpus : corpus_t) (damping_factor : Q)
  (st : dict Q * dict xfloat) : result (dict Q * dict xfloat) :=
  fold_m (update_page corpus damping_factor (qlen corpus)) (keys (fst st)) st.

(** Line 124: [while any(c > 0.001 for c in interate_changes.values())].
    The loop is run for at most [fuel] tests of its condition; [None]
    means that the fuel ran out before the loop exited. *)
Fixpoint iterate_loop (fuel : nat) (corpus : corpus_t) (damping_factor : Q)
  (st : dict Q * dict xfloat) : option (result (dict Q)) :=
  match fuel with
  | O => None
  | S f =>
      if existsb exceeds_threshold (values (snd st)) then
        match iterate_pass corpus damping_factor st with
        | Ok st' => iterate_loop f corpus damping_factor st'
        | Err e => Some (Err e)
        end
      else Some (Ok (fst st))
  end.

(** Lines 117-121. *)
Definition iterate_init (corpus : corpus_t) : result (dict Q * dict xfloat) :=
  let total := List.length corpus in
  v <- pydiv 1 (inject_Z (Z.of_nat total)) ;;
  Ok (dict_zip (keys corpus) (repeat v total),
      dict_zip (keys corpus) (repeat Inf total)).

Definition iterate_pagerank (fuel : nat) (corpus : corpus_t) (damping_factor : Q)
  : option (result (dict Q)) :=
  match iterate_init corpus with
  | Err e => Some (Err e)
  | Ok st => iterate_loop fuel corpus damping_factor st
  end.

(** ** crawl (lines 25-49) *)

(** [s.endswith(suffix)] *)
Definition endswith (s suffix : string) : bool :=
  let n := String.length s in
  let m := String.length suffix in
  (m <=? n)%nat && String.eqb (substring (n - m) m s) suffix.

(** A directory as [crawl] sees it.  [listdir] is [os.listdir(directory)]:
    the names in the order it returns them, or the exception it raises when
    the path cannot be listed.  [read_file f] is
    [open(os.path.join(directory, f)).read()]: the text of the file, or the
    exception [open] or [read] raises (an [OSError] such as
    [IsADirectoryError] or [PermissionError], or the [ValueError] subclass
    [UnicodeDecodeError]). *)
Record directory : Type := {
  listdir : result (list string);
  read_file : string -> result string
}.

Section Crawl.

(** [re.findall(pattern, contents)] with the anchor pattern of line 39:
    the [href] targets of a page's text.  The regular expression itself is
    not modelled; everything below holds for any extraction function. *)
Variable findall_href : string -> list string.

(** Lines 31-40.  [set(links) - {filename}] is a duplicate-free list without
    [filename]; Python's set order is not specified, and nothing below
    depends on the order chosen here (first occurrences). *)
Definition crawl_read (dir : directory) : result (dict (list page)) :=
  names <- listdir dir ;;
  fold_m (fun pages filename =>
            if negb (endswith filename ".html"%string) then Ok pages
            else
              contents <- read_file dir filename ;;
              let links := findall_href contents in
              Ok (setitem pages filename (remove string_dec filename (nodup string_dec links))))
         names [].

(** Lines 43-47: every link set is cut down to the pages of the corpus. *)
Definition crawl_filter (pages : dict (list page)) : result corpus_t :=
  fold_m (fun pages' filename =>
            l <- getitem pages' filename ;;
            Ok (setitem pages' filename
                  (nodup string_dec (filter (fun link => mem link (keys pages')) l))))
         (keys pages) pages.

Definition crawl (dir : directory) : result corpus_t :=
  pages <- crawl_read dir ;;
  crawl_filter pages.

End Crawl.

(** ** main (lines 7-22) *)

Definition DAMPING : Q := 85 # 100.
Definition SAMPLES : Z := 10000.

(** The two rank dicts [main] prints (lines 14 and 19): [crawl], then
    [sample_pagerank] (an exception there ends the program before anything
    is printed), then [iterate_pagerank].  The argument check of lines 12-13
    and the formatting of the output are not modelled. *)
Definition main_ranks (findall_href : string -> list string) (dir : directory)
  (src : random_source) (fuel : nat) : option (result (dict Q * dict Q)) :=
  match crawl findall_href dir with
  | Err e => Some (Err e)
  | Ok corpus =>
      match sample_pagerank src corpus DAMPING SAMPLES with
      | Err e => Some (Err e)
      | Ok sampled =>
          match iterate_pagerank fuel corpus DAMPING with
          | None => None
          | Some (Err e) => Some (Err e)
          | Some (Ok iterated) => Some (Ok (sampled, iterated))
          end
      end
  end.

(** ** Vocabulary for the proofs

    Sums over lists and index ranges, and the iterative estimator read as a
    map on rank vectors (functions from page positions to rationals). *)

Fixpoint sumQ (l : list Q) : Q :=
  match l with
  | [] => 0
  | x :: l' => x + sumQ l'
  end.

Fixpoint sumZ (l : list Z) : Z :=
  match l with
  | [] => 0%Z
  | x :: l' => (x + sumZ l')%Z
  end.

(** A sample count is never negative. *)
Definition nonneg (c : Z) : Prop := (0 <= c)%Z.

(** [sum_to n f] is [f 0 + ... + f (n-1)]. *)
Fixpoint sum_to (n : nat) (f : nat -> Q) : Q :=
  match n with
  | O => 0
  | S n' => sum_to n' f + f n'
  end.

(** Number of occurrences of a page in a list of links. *)
Definition cnt (k : page) (l : list page) : nat := count_occ string_dec l k.

(** The link set the iterative estimator uses for a page (lines 132-133):
    a page without links is read as linking to every page. *)
Definition eff_links (corpus : corpus_t) (links : list page) : list page :=
  match links with
  | [] => keys corpus
  | _ => links
  end.

(** The share of page [j]'s rank that flows to page [i]. *)
Definition weight (corpus : corpus_t) (j i : nat) : Q :=
  let links := eff_links corpus (nth j (values corpus) []) in
  if mem (nth i (keys corpus) EmptyString) links then 1 / qlen links else 0.

(** The rank of a dict at position [j]. *)
Definition vec (r : dict Q) (j : nat) : Q := nth j (values r) 0.

(** The new rank of position [i] computed from the current vector [u]. *)
Definition gs_update (corpus : corpus_t) (d : Q) (i : nat) (u : nat -> Q) : Q :=
  (1 - d) / qlen corpus
  + d * sum_to (List.length corpus) (fun j => weight corpus j i * u j).

(** The vector after the first [k] pages of a pass have been updated in place. *)
Fixpoint gs_upto (corpus : corpus_t) (d : Q) (k : nat) (x : nat -> Q) : nat -> Q :=
  match k with
  | O => x
  | S k' =>
      let u := gs_upto corpus d k' x in
      fun j => if j =? k' then gs_update corpus d k' u else u j
  end.

(** A full pass. *)
Definition gs (corpus : corpus_t) (d : Q) (x : nat -> Q) : nat -> Q :=
  gs_upto corpus d (List.length corpus) x.

(** The rank vector after [k] passes. *)
Fixpoint gs_iter (corpus : corpus_t) (d : Q) (k : nat) (x : nat -> Q) : nat -> Q :=
  match k with
  | O => x
  | S k' => gs corpus d (gs_iter corpus d k' x)
  end.

(** The part of position [j]'s outflow that goes to later positions. *)
Definition later_share (corpus : corpus_t) (j : nat) : Q :=
  sum_to (List.length corpus) (fun i => if j <? i then weight corpus j i else 0).

(** A weighted 1-norm in which one pass is a contraction. *)
Definition wnorm (corpus : corpus_t) (d : Q) (e : nat -> Q) : Q :=
  sum_to (List.length corpus)
    (fun j => (1 - d * later_share corpus j) * Qabs (e j)).

(** The probability [transition_model] is meant to give page [k] when the
    current page has the link set [links]. *)
Definition tm_prob (corpus : corpus_t) (links : list page) (d : Q) (k : page) : Q :=
  match links with
  | [] => 1 / qlen corpus
  | _ => (1 - d) / qlen corpus + inject_Z (Z.of_nat (cnt k links)) * (d / qlen links)
  end.

(** The update the spec describes: every page's new rank computed from the
    previous pass's full snapshot [old_rank]. *)
Definition spec_snapshot_rank (corpus : corpus_t) (d : Q) (old_rank : dict Q)
  (i : nat) : Q :=
  gs_update corpus d i (vec old_rank).

(** ** Concrete inputs *)

Module Examples.
Local Open Scope string_scope.

Definition src0 : random_source :=
  {| rs_below := 0; rs_random := fun i => (Z.of_nat i # 7) |}.

(** Scenario A of the spec. *)
Definition scenario_a : corpus_t := [("1.html", ["2.html"]); ("2.html", ["1.html"])].
(** Scenario B: [1.html] is a sink. *)
Definition scenario_b : corpus_t := [("1.html", []); ("2.html", ["1.html"])].
(** Scenario C: one page. *)
Definition scenario_c : corpus_t := [("a.html", [])].
(** A graph with a link to a page outside the corpus. *)
Definition dangling_ref : corpus_t := [("a.html", ["b.html"])].


(** A small site for [crawl]: the text of each file is its own name, and
    [site_hrefs] lists the anchors found in that text.  [index.html] links
    to itself, to a missing page and twice to [about.html]. *)
Definition site_hrefs (contents : string) : list string :=
  if String.eqb contents "index.html" then
    ["about.html"; "index.html"; "missing.html"; "about.html"]
  else if String.eqb contents "about.html" then ["index.html"]
  else [].
Definition site : directory :=
  {| listdir := Ok ["index.html"; "notes.txt"; "about.html"]; read_file := fun f => Ok f |}.
Definition site_corpus : corpus_t :=
  [("index.html", ["about.html"]); ("about.html", ["index.html"])].
(** A directory without any [.html] file. *)
Definition no_pages : directory :=
  {| listdir := Ok ["notes.txt"; "html"]; read_file := fun f => Ok f |}.

End Examples.

(** * Proofs *)

(** ** Strings, membership and the link-graph invariants *)

Module DictFacts.

Lemma mem_In (x : page) (l : list page) : mem x l = true <-> In x l.
Proof.
  unfold mem. rewrite existsb_exists. split.
  - intros [y [Hy Heq]]. apply String.eqb_eq in Heq. subst. exact Hy.
  - intros H. exists x. split; [exact H | apply String.eqb_refl].
Qed.

Lemma mem_false_not_In (x : page) (l : list page) : mem x l = false <-> ~ In x l.
Proof.
  rewrite <- mem_In. destruct (mem x l); split; congruence.
Qed.

Lemma nodupb_NoDup (l : list page) : nodupb l = true -> NoDup l.
Proof.
  induction l as [|x l IH]; simpl; intros H.
  - constructor.
  - apply andb_true_iff in H as [H1 H2]. constructor.
    + intros Hin. apply mem_In in Hin. rewrite Hin in H1. discriminate.
    + apply IH, H2.
Qed.

Lemma valid_keys (corpus : corpus_t) : valid_corpus corpus -> NoDup (keys corpus).
Proof.
  unfold valid_corpus, valid_corpusb. intros H.
  apply andb_true_iff in H as [H _]. apply nodupb_NoDup, H.
Qed.

Lemma valid_links (corpus : corpus_t) (p : page) (links : list page) :
  valid_corpus corpus -> In (p, links) corpus ->
  NoDup links /\ ~ In p links /\ (forall q, In q links -> In q (keys corpus)).
Proof.
  unfold valid_corpus, valid_corpusb. intros H Hin.
  apply andb_true_iff in H as [_ H]. rewrite forallb_forall in H.
  specialize (H _ Hin). simpl in H.
  apply andb_true_iff in H as [H H3]. apply andb_true_iff in H as [H1 H2].
  repeat split.
  - apply nodupb_NoDup, H1.
  - apply negb_true_iff, mem_false_not_In in H2. exact H2.
  - intros q Hq. rewrite forallb_forall in H3. apply mem_In, H3, Hq.
Qed.

(** ** Dictionary operations *)

Lemma lookup_In {V : Type} (k : page) (d : dict V) (v : V) :
  lookup k d = Some v -> In (k, v) d.
Proof.
  induction d as [|[k' v'] d IH]; simpl; [discriminate|].
  destruct (String.eqb_spec k k') as [->|_]; intros H.
  - inversion H. left. reflexivity.
  - right. apply IH, H.
Qed.

Lemma lookup_keys {V : Type} (k : page) (d : dict V) :
  lookup k d <> None <-> In k (keys d).
Proof.
  induction d as [|[k' v'] d IH]; simpl.
  - split; [congruence | contradiction].
  - destruct (String.eqb_spec k k') as [->|Hne].
    + split; [intros _; left; reflexivity | congruence].
    + rewrite IH. split; [intros H; right; exact H|].
      intros [H|H]; [congruence | exact H].
Qed.

Lemma lookup_replace {V : Type} (k k' : page) (v : V) (d : dict V) :
  lookup k' d <> None ->
  lookup k (replace k' v d) = if String.eqb k k' then Some v else lookup k d.
Proof.
  induction d as [|[a b] d IH]; simpl; [congruence|].
  destruct (String.eqb_spec k' a) as [->|Hne]; intros Hl; simpl.
  - destruct (String.eqb_spec k a); reflexivity.
  - rewrite (IH Hl).
    destruct (String.eqb_spec k a) as [Hka|Hka], (String.eqb_spec k k') as [Hkk'|Hkk'];
      subst; congruence.
Qed.

Lemma keys_replace {V : Type} (k : page) (v : V) (d : dict V) :
  keys (replace k v d) = keys d.
Proof.
  induction d as [|[a b] d IH]; simpl; [reflexivity|].
  destruct (String.eqb k a); simpl; [reflexivity | f_equal; exact IH].
Qed.

Lemma setitem_present {V : Type} (d : dict V) (k : page) (v : V) :
  lookup k d <> None -> setitem d k v = replace k v d.
Proof.
  unfold setitem. destruct (lookup k d); congruence.
Qed.

Lemma keys_dict_zip_repeat {V : Type} (ks : list page) (b : V) :
  keys (dict_zip ks (repeat b (List.length ks))) = ks.
Proof.
  induction ks as [|k ks IH]; simpl; [reflexivity | f_equal; exact IH].
Qed.

Lemma lookup_dict_zip_repeat {V : Type} (ks : list page) (b : V) (k : page) :
  In k ks -> lookup k (dict_zip ks (repeat b (List.length ks))) = Some b.
Proof.
  induction ks as [|k' ks IH]; simpl; [contradiction|].
  destruct (String.eqb_spec k k') as [->|Hne]; [reflexivity|].
  intros [H|H]; [congruence | apply IH, H].
Qed.

End DictFacts.

(** ** Rational arithmetic *)

Module QFacts.

Lemma pydiv_ok (a b : Q) : ~ b == 0 -> pydiv a b = Ok (Qred (a / b)).
Proof.
  unfold pydiv. intros Hb. destruct (Qeq_bool b 0) eqn:E; [|reflexivity].
  apply Qeq_bool_eq in E. contradiction.
Qed.


Lemma qlen_pos {A : Type} (l : list A) : l <> [] -> 0 < qlen l.
Proof.
  unfold qlen. destruct l as [|x l]; [congruence|]. intros _.
  unfold Qlt; simpl. lia.
Qed.

Lemma qlen_nz {A : Type} (l : list A) : l <> [] -> ~ qlen l == 0.
Proof.
  intros H Heq. pose proof (qlen_pos l H) as Hp. rewrite Heq in Hp.
  apply (Qlt_irrefl 0), Hp.
Qed.

Lemma inject_nat_S (n : nat) :
  inject_Z (Z.of_nat (S n)) == inject_Z (Z.of_nat n) + 1.
Proof.
  unfold Qeq; simpl. lia.
Qed.

Lemma inject_nat_nonneg (n : nat) : 0 <= inject_Z (Z.of_nat n).
Proof.
  unfold Qle; simpl. lia.
Qed.

End QFacts.

(** ** transition_model *)

Module TransitionFacts.
Import DictFacts QFacts.

(** The loop of lines 71-72 adds [lk] once per occurrence of a page in
    the link list, and raises [KeyError] at the first link that is not a
    key. *)
Lemma add_links_ok (lk : Q) : forall (l : list page) (sf : dict Q),
  (forall q, In q l -> In q (keys sf)) ->
  exists sf',
    fold_m (fun sf corpus_links =>
              v <- getitem sf corpus_links ;;
              Ok (setitem sf corpus_links (fadd v lk))) l sf = Ok sf' /\
    keys sf' = keys sf /\
    forall k v, lookup k sf = Some v ->
      exists v', lookup k sf' = Some v' /\
                 v' == v + inject_Z (Z.of_nat (cnt k l)) * lk.
Proof.
  induction l as [|q l IH]; intros sf Hin; simpl.
  - exists sf. split; [reflexivity|]. split; [reflexivity|].
    intros k v Hk. exists v. split; [exact Hk|]. unfold cnt, inject_Z; simpl. ring.
  - assert (Hq : lookup q sf <> None) by (apply lookup_keys, Hin; left; reflexivity).
    unfold getitem. destruct (lookup q sf) as [v0|] eqn:Ev0; [|congruence]. simpl.
    rewrite setitem_present by congruence.
    destruct (IH (replace q (fadd v0 lk) sf)) as [sf' [Hf [Hk Hv]]].
    { intros q' Hq'. rewrite keys_replace. apply Hin. right. exact Hq'. }
    exists sf'. split; [exact Hf|]. split; [rewrite Hk; apply keys_replace|].
    intros k v Hkv.
    destruct (Hv k (if String.eqb k q then fadd v0 lk else v)) as [v' [Hl' Hq']].
    { rewrite lookup_replace by congruence.
      destruct (String.eqb k q); [reflexivity | exact Hkv]. }
    exists v'. split; [exact Hl'|]. rewrite Hq'. unfold cnt; simpl.
    destruct (String.eqb_spec k q) as [->|Hne].
    + destruct (string_dec q q) as [_|C]; [|congruence].
      rewrite Ev0 in Hkv. inversion Hkv; subst.
      unfold fadd. rewrite Qred_correct, inject_nat_S. unfold cnt. ring.
    + destruct (string_dec q k) as [C|_]; [congruence|]. reflexivity.
Qed.

Lemma add_links_keyerror (lk : Q) : forall (l : list page) (sf : dict Q),
  (exists q, In q l /\ ~ In q (keys sf)) ->
  fold_m (fun sf corpus_links =>
            v <- getitem sf corpus_links ;;
            Ok (setitem sf corpus_links (fadd v lk))) l sf = Err KeyError.
Proof.
  induction l as [|q l IH]; intros sf [q' [Hq' Hnk]]; simpl; [contradiction|].
  unfold getitem. destruct (lookup q sf) as [v0|] eqn:Ev0; simpl.
  - rewrite setitem_present by congruence. apply IH.
    exists q'. rewrite keys_replace. split; [|exact Hnk].
    destruct Hq' as [->|H]; [|exact H].
    exfalso. apply Hnk, lookup_keys. congruence.
  - reflexivity.
Qed.

End TransitionFacts.

(** ** Sums over lists *)

Module ListSums.
Import DictFacts QFacts.

Lemma sumQ_map_ext {A : Type} (f g : A -> Q) (l : list A) :
  (forall x, In x l -> f x == g x) -> sumQ (map f l) == sumQ (map g l).
Proof.
  induction l as [|x l IH]; simpl; intros H; [reflexivity|].
  rewrite (H x (or_introl eq_refl)), IH; [reflexivity|].
  intros y Hy. apply H. right. exact Hy.
Qed.

Lemma sumQ_map_plus {A : Type} (f g : A -> Q) (l : list A) :
  sumQ (map (fun x => f x + g x) l) == sumQ (map f l) + sumQ (map g l).
Proof.
  induction l as [|x l IH]; simpl; [reflexivity|]. rewrite IH. ring.
Qed.

Lemma sumQ_map_scale {A : Type} (c : Q) (f : A -> Q) (l : list A) :
  sumQ (map (fun x => f x * c) l) == sumQ (map f l) * c.
Proof.
  induction l as [|x l IH]; simpl; [ring|]. rewrite IH. ring.
Qed.

Lemma sumQ_map_const {A : Type} (c : Q) (l : list A) :
  sumQ (map (fun _ => c) l) == qlen l * c.
Proof.
  induction l as [|x l IH]; simpl.
  - unfold qlen; simpl. ring.
  - rewrite IH. unfold qlen. simpl List.length. rewrite inject_nat_S. ring.
Qed.

Lemma sumQ_indicator_absent (a : page) (ks : list page) :
  ~ In a ks -> sumQ (map (fun k => if string_dec a k then 1 else 0) ks) == 0.
Proof.
  induction ks as [|k ks IH]; simpl; intros H; [reflexivity|].
  destruct (string_dec a k) as [->|_]; [exfalso; apply H; left; reflexivity|].
  rewrite IH; [ring|]. intros Hin. apply H. right. exact Hin.
Qed.

Lemma sumQ_indicator (a : page) (ks : list page) :
  NoDup ks -> In a ks ->
  sumQ (map (fun k => if string_dec a k then 1 else 0) ks) == 1.
Proof.
  induction ks as [|k ks IH]; simpl; intros Hnd Hin; [contradiction|].
  inversion Hnd as [|k' ks' Hk Hnd']; subst.
  destruct (string_dec a k) as [->|Hne].
  - rewrite sumQ_indicator_absent by exact Hk. ring.
  - destruct Hin as [->|Hin]; [congruence|]. rewrite IH by assumption. ring.
Qed.

(** Summed over the keys, the occurrence counts of a list of keys add up to
    its length. *)
Lemma sumQ_cnt (ks l : list page) :
  NoDup ks -> (forall q, In q l -> In q ks) ->
  sumQ (map (fun k => inject_Z (Z.of_nat (cnt k l))) ks) == qlen l.
Proof.
  intros Hnd. induction l as [|a l IH]; intros Hl.
  - rewrite (sumQ_map_ext _ (fun _ => 0)) by (intros; reflexivity).
    rewrite sumQ_map_const. unfold qlen; simpl. ring.
  - rewrite (sumQ_map_ext _ (fun k => (if string_dec a k then 1 else 0)
                                      + inject_Z (Z.of_nat (cnt k l)))).
    + rewrite sumQ_map_plus, sumQ_indicator, IH; [| | exact Hnd | apply Hl; left; reflexivity].
      * unfold qlen. simpl List.length. rewrite inject_nat_S. ring.
      * intros q Hq. apply Hl. right. exact Hq.
    + intros k _. unfold cnt. simpl. destruct (string_dec a k).
      * rewrite inject_nat_S. ring.
      * ring.
Qed.

(** The values of a dict whose keys are [ks], read key by key. *)
Lemma sumQ_values_lookup (dd : dict Q) (ks : list page) (f : page -> Q) :
  keys dd = ks -> NoDup ks ->
  (forall k, In k ks -> exists v, lookup k dd = Some v /\ v == f k) ->
  sumQ (values dd) == sumQ (map f ks).
Proof.
  revert ks. induction dd as [|[k v] dd IH]; intros ks Hk Hnd Hf; simpl in *; subst ks.
  - reflexivity.
  - inversion Hnd as [|k' ks' Hnk Hnd']; subst.
    destruct (Hf k (or_introl eq_refl)) as [v' [Hl Hv]].
    rewrite String.eqb_refl in Hl. inversion Hl; subst.
    rewrite Hv, (IH (keys dd)); [reflexivity | reflexivity | exact Hnd'|].
    intros k0 Hk0. destruct (Hf k0 (or_intror Hk0)) as [v0 [Hl0 Hv0]].
    exists v0. split; [|exact Hv0].
    destruct (String.eqb_spec k0 k) as [->|_]; [contradiction | exact Hl0].
Qed.

Lemma qlen_keys {V : Type} (d : dict V) : qlen (keys d) = qlen d.
Proof.
  unfold qlen, keys. rewrite length_map. reflexivity.
Qed.

End ListSums.

Module TransitionModel.
Import DictFacts QFacts ListSums TransitionFacts.

Lemma keys_nonempty (corpus : corpus_t) (pg : page) :
  In pg (keys corpus) -> corpus <> [].
Proof. destruct corpus; simpl; [contradiction | discriminate]. Qed.

Lemma transition_model_ok (corpus : corpus_t) (pg : page) (d : Q) (links : list page) :
  lookup pg corpus = Some links ->
  (forall q, In q links -> In q (keys corpus)) ->
  exists dist,
    transition_model corpus pg d = Ok dist /\
    keys dist = keys corpus /\
    forall k, In k (keys corpus) ->
      exists v, lookup k dist = Some v /\ v == tm_prob corpus links d k.
Proof.
  intros Hl Hlinks.
  assert (Hc : corpus <> []).
  { apply (keys_nonempty corpus pg), lookup_keys. congruence. }
  unfold transition_model, getitem. rewrite Hl. cbn [bind].
  destruct links as [|l0 ls] eqn:El.
  - rewrite pydiv_ok by (apply qlen_nz, Hc). cbn [bind].
    eexists. split; [reflexivity|].
    replace (List.length corpus) with (List.length (keys corpus))
      by (unfold keys; apply length_map).
    split; [apply keys_dict_zip_repeat|].
    intros k Hk. eexists. split; [apply lookup_dict_zip_repeat, Hk|].
    unfold tm_prob. apply Qred_correct.
  - rewrite pydiv_ok by (apply qlen_nz, Hc). cbn [bind].
    rewrite pydiv_ok by (apply qlen_nz; discriminate). cbn [bind].
    replace (List.length corpus) with (List.length (keys corpus))
      by (unfold keys; apply length_map).
    set (base := Qred (fsub 1 d / qlen corpus)).
    set (lk := Qred (d / qlen (l0 :: ls))).
    destruct (add_links_ok lk (l0 :: ls)
                (dict_zip (keys corpus) (repeat base (List.length (keys corpus)))))
      as [sf' [Hf [Hk Hv]]].
    { intros q Hq. rewrite keys_dict_zip_repeat. apply Hlinks, Hq. }
    exists sf'. split; [exact Hf|]. split; [rewrite Hk; apply keys_dict_zip_repeat|].
    intros k Hin.
    destruct (Hv k base (lookup_dict_zip_repeat _ _ _ Hin)) as [v' [Hl' Hq']].
    exists v'. split; [exact Hl'|]. rewrite Hq'. simpl tm_prob.
    subst base lk. unfold fsub. rewrite !Qred_correct. reflexivity.
Qed.

(** The distribution sums to one, whatever the damping. *)
Lemma tm_prob_sum (corpus : corpus_t) (links : list page) (d : Q) :
  NoDup (keys corpus) -> corpus <> [] ->
  (forall q, In q links -> In q (keys corpus)) ->
  sumQ (map (tm_prob corpus links d) (keys corpus)) == 1.
Proof.
  intros Hnd Hc Hlinks. pose proof (qlen_nz corpus Hc) as HN.
  unfold tm_prob. destruct links as [|l0 ls] eqn:El.
  - rewrite sumQ_map_const, qlen_keys. field. exact HN.
  - rewrite sumQ_map_plus, sumQ_map_const, sumQ_map_scale, qlen_keys.
    rewrite sumQ_cnt by assumption.
    field. split; [apply qlen_nz; discriminate | exact HN].
Qed.

Lemma transition_model_keyerror (corpus : corpus_t) (pg : page) (d : Q) (links : list page) :
  lookup pg corpus = Some links ->
  (exists q, In q links /\ ~ In q (keys corpus)) ->
  transition_model corpus pg d = Err KeyError.
Proof.
  intros Hl Hq.
  assert (Hc : corpus <> []).
  { apply (keys_nonempty corpus pg), lookup_keys. congruence. }
  unfold transition_model, getitem. rewrite Hl. cbn [bind].
  destruct links as [|l0 ls] eqn:El; [destruct Hq as [q [[] _]]|].
  rewrite pydiv_ok by (apply qlen_nz, Hc). cbn [bind].
  rewrite pydiv_ok by (apply qlen_nz; discriminate). cbn [bind].
  apply add_links_keyerror.
  destruct Hq as [q [Hq Hn]]. exists q. split; [exact Hq|].
  replace (List.length corpus) with (List.length (keys corpus))
    by (unfold keys; apply length_map).
  rewrite keys_dict_zip_repeat. exact Hn.
Qed.

End TransitionModel.

Module CountFacts.
Import DictFacts.

Lemma cnt_nodup (k : page) (l : list page) :
  NoDup l -> cnt k l = if mem k l then 1%nat else 0%nat.
Proof.
  intros Hnd. unfold cnt. destruct (mem k l) eqn:E.
  - apply mem_In in E. apply (proj1 (NoDup_count_occ' string_dec l) Hnd k E).
  - apply mem_false_not_In in E. apply count_occ_not_In, E.
Qed.

End CountFacts.


(** ** sample_pagerank *)

Module Sampling.
Import DictFacts QFacts ListSums TransitionFacts TransitionModel.

Lemma accumulate_length (a : Q) (ws : list Q) :
  List.length (accumulate a ws) = List.length ws.
Proof.
  revert a. induction ws as [|w ws IH]; intros a; simpl; [reflexivity | f_equal; apply IH].
Qed.

(** The last cumulative weight is the total. *)
Lemma accumulate_last (a : Q) (ws : list Q) :
  ws <> [] ->
  exists t rest, rev (accumulate a ws) = t :: rest /\ t == a + sumQ ws.
Proof.
  revert a. induction ws as [|w ws IH]; intros a Hne; [congruence|].
  simpl. destruct ws as [|w' ws'].
  - exists (fadd a w), []. split; [reflexivity|]. unfold fadd. rewrite Qred_correct.
    simpl. ring.
  - destruct (IH (fadd a w)) as [t [rest [Hr Ht]]]; [discriminate|].
    exists t, (rest ++ [fadd a w]). split.
    + rewrite Hr. reflexivity.
    + rewrite Ht. unfold fadd. rewrite Qred_correct. simpl. ring.
Qed.

Lemma bisect_right_le (fuel : nat) (a : list Q) (x : Q) : forall lo hi,
  (lo <= hi)%nat -> (bisect_right fuel a x lo hi <= hi)%nat.
Proof.
  induction fuel as [|f IH]; intros lo hi Hle; cbn [bisect_right]; [exact Hle|]. cbv zeta.
  destruct (Nat.ltb_spec lo hi) as [Hlt|Hge]; [|exact Hle].
  assert (Hmid : ((lo + hi) / 2 < hi)%nat).
  { apply Nat.Div0.div_lt_upper_bound. lia. }
  assert (Hmid' : (lo <= (lo + hi) / 2)%nat).
  { apply Nat.div_le_lower_bound; lia. }
  destruct (negb (Qle_bool (nth ((lo + hi) / 2)%nat a 0) x)).
  - specialize (IH lo ((lo + hi) / 2)%nat Hmid'). lia.
  - apply IH. lia.
Qed.

Lemma choice_ok (l : list page) (r : nat) :
  l <> [] -> exists p, choice l r = Ok p /\ In p l.
Proof.
  destruct l as [|x l']; [congruence|]. intros _.
  exists (nth (r mod List.length (x :: l'))%nat (x :: l') x). split; [reflexivity|].
  apply nth_In, Nat.mod_upper_bound. discriminate.
Qed.

(** [random.choices] returns one of the candidates when the weights are as
    many as the candidates and their total is positive. *)
Lemma choices_ok (pop : list page) (ws : list Q) (u : Q) :
  pop <> [] -> List.length ws = List.length pop -> 0 < sumQ ws ->
  exists p, choices pop ws u = Ok p /\ In p pop.
Proof.
  intros Hp Hlen Hpos. unfold choices.
  rewrite accumulate_length, Hlen, Nat.eqb_refl. simpl negb. cbv iota.
  destruct (accumulate_last 0 ws) as [t [rest [Hr Ht]]].
  { intros ->. destruct pop; simpl in Hlen; congruence. }
  rewrite Hr.
  destruct (Qle_bool t 0) eqn:E.
  - apply Qle_bool_iff in E. rewrite Ht in E. lra.
  - destruct pop as [|x pop']; [congruence|].
    eexists. split; [reflexivity|]. apply nth_In.
    pose proof (bisect_right_le (List.length (x :: pop') - 1) (accumulate 0 ws)
                  (fmul u t) 0 (List.length (x :: pop') - 1) ltac:(lia)).
    simpl in *. lia.
Qed.

Lemma sumZ_replace_incr (k : page) (v : Z) (d : dict Z) :
  lookup k d = Some v -> sumZ (values (replace k (v + 1)%Z d)) = (sumZ (values d) + 1)%Z.
Proof.
  induction d as [|[a b] d IH]; simpl; [discriminate|].
  destruct (String.eqb_spec k a) as [->|Hne]; intros H.
  - inversion H; subst. simpl. lia.
  - destruct (String.eqb_spec k a) as [C|_]; [congruence|]. simpl. rewrite IH by exact H. lia.
Qed.

Lemma nonneg_replace_incr (k : page) (v : Z) (d : dict Z) :
  lookup k d = Some v -> Forall (fun c => 0 <= c)%Z (values d) ->
  Forall (fun c => 0 <= c)%Z (values (replace k (v + 1)%Z d)).
Proof.
  induction d as [|[a b] d IH]; simpl; [discriminate|].
  intros H Hf. inversion Hf as [|x l Hb Hf']; subst. cbv beta in Hb.
  destruct (String.eqb_spec k a) as [->|Hne].
  - inversion H; subst. constructor; [simpl; lia | exact Hf'].
  - destruct (String.eqb_spec k a) as [C|_]; [congruence|].
    constructor; [exact Hb | apply IH; assumption].
Qed.

Lemma lookup_values {V : Type} (k : page) (d : dict V) (v : V) :
  lookup k d = Some v -> In v (values d).
Proof.
  intros H. apply lookup_In in H. unfold values.
  change v with (snd (k, v)). apply in_map, H.
Qed.

Lemma transition_dist_ok (corpus : corpus_t) (pg : page) (d : Q) :
  valid_corpus corpus -> In pg (keys corpus) ->
  exists dist, transition_model corpus pg d = Ok dist /\
    keys dist = keys corpus /\ sumQ (values dist) == 1.
Proof.
  intros Hv Hin.
  destruct (lookup pg corpus) as [links|] eqn:El;
    [| exfalso; apply (proj2 (lookup_keys pg corpus) Hin), El].
  destruct (valid_links corpus pg links Hv (lookup_In _ _ _ El)) as [_ [_ Hsub]].
  destruct (transition_model_ok corpus pg d links El Hsub) as [dist [Ht [Hk Hd]]].
  exists dist. split; [exact Ht|]. split; [exact Hk|].
  rewrite (sumQ_values_lookup dist (keys corpus) (tm_prob corpus links d) Hk
             (valid_keys corpus Hv) Hd).
  apply tm_prob_sum; [apply valid_keys, Hv | apply (keys_nonempty _ pg Hin) | exact Hsub].
Qed.

(** One loop iteration counts the current page once and moves to a page
    of the corpus. *)
Lemma sample_step_ok (src : random_source) (corpus : corpus_t) (d : Q)
  (sr : dict Z) (cp : page) (i : nat) :
  valid_corpus corpus -> keys sr = keys corpus -> In cp (keys corpus) ->
  Forall nonneg (values sr) ->
  exists sr' cp',
    sample_step src corpus d (sr, cp) i = Ok (sr', cp') /\
    keys sr' = keys corpus /\ In cp' (keys corpus) /\
    Forall nonneg (values sr') /\
    sumZ (values sr') = (sumZ (values sr) + 1)%Z.
Proof.
  intros Hv Hk Hcp Hnn.
  assert (Hl : lookup cp sr <> None) by (apply lookup_keys; rewrite Hk; exact Hcp).
  destruct (lookup cp sr) as [c|] eqn:Ec; [|congruence].
  destruct (transition_dist_ok corpus cp d Hv Hcp) as [dist [Ht [Hkd Hs]]].
  assert (Hne : keys dist <> []).
  { rewrite Hkd. destruct (keys corpus); [contradiction | discriminate]. }
  destruct (choices_ok (keys dist) (values dist) (rs_random src i)) as [cp' [Hc Hin]].
  - exact Hne.
  - unfold keys, values. rewrite !length_map. reflexivity.
  - rewrite Hs. lra.
  - exists (replace cp (c + 1)%Z sr), cp'.
    unfold sample_step, getitem. rewrite Ec. cbn [bind]. cbv zeta.
    rewrite setitem_present by congruence. rewrite Ht. cbn [bind]. rewrite Hc. cbn [bind].
    split; [reflexivity|]. split; [rewrite keys_replace; exact Hk|].
    split; [rewrite <- Hkd; exact Hin|].
    split; [apply nonneg_replace_incr; assumption | apply sumZ_replace_incr; exact Ec].
Qed.

Lemma sample_loop_ok (src : random_source) (corpus : corpus_t) (d : Q) :
  valid_corpus corpus -> forall (l : list nat) (sr : dict Z) (cp : page),
  keys sr = keys corpus -> In cp (keys corpus) -> Forall nonneg (values sr) ->
  exists sr' cp',
    fold_m (sample_step src corpus d) l (sr, cp) = Ok (sr', cp') /\
    keys sr' = keys corpus /\ In cp' (keys corpus) /\
    Forall nonneg (values sr') /\
    sumZ (values sr') = (sumZ (values sr) + Z.of_nat (List.length l))%Z.
Proof.
  intros Hv l. induction l as [|i l IH]; intros sr cp Hk Hcp Hnn; cbn [fold_m List.length].
  - exists sr, cp. repeat split; try assumption. lia.
  - destruct (sample_step_ok src corpus d sr cp i Hv Hk Hcp Hnn)
      as [sr1 [cp1 [Hs [Hk1 [Hcp1 [Hnn1 Hsum1]]]]]].
    rewrite Hs. cbn [bind].
    destruct (IH sr1 cp1 Hk1 Hcp1 Hnn1) as [sr' [cp' [Hf [Hk' [Hcp' [Hnn' Hsum']]]]]].
    exists sr', cp'. repeat split; try assumption. lia.
Qed.

Lemma values_dict_zip_repeat {V : Type} (ks : list page) (b : V) :
  values (dict_zip ks (repeat b (List.length ks))) = repeat b (List.length ks).
Proof.
  induction ks as [|k ks IH]; simpl; [reflexivity | f_equal; exact IH].
Qed.

Lemma sumZ_repeat_zero (m : nat) : sumZ (repeat 0%Z m) = 0%Z.
Proof. induction m as [|m IH]; simpl; [reflexivity | rewrite IH; reflexivity]. Qed.

Lemma nonneg_repeat_zero (m : nat) : Forall nonneg (repeat 0%Z m).
Proof.
  induction m as [|m IH]; simpl; constructor; [unfold nonneg; lia | exact IH].
Qed.

Lemma length_keys {V : Type} (d : dict V) : List.length (keys d) = List.length d.
Proof. unfold keys. apply length_map. Qed.

(** The counters of lines 88-101 when the loop is done: one count per
    iteration, [n - 1] in all. *)
Lemma sample_counts_ok (src : random_source) (corpus : corpus_t) (d : Q) (n : Z) :
  valid_corpus corpus -> corpus <> [] ->
  exists counts,
    sample_counts src corpus d n = Ok counts /\
    keys counts = keys corpus /\
    Forall nonneg (values counts) /\
    sumZ (values counts) = Z.of_nat (Z.to_nat (n - 1)).
Proof.
  intros Hv Hc. unfold sample_counts.
  assert (Hne : keys corpus <> []) by (destruct corpus; [congruence | discriminate]).
  destruct (choice_ok (keys corpus) (rs_below src) Hne) as [cp [Hch Hcp]].
  rewrite Hch. cbn [bind].
  rewrite <- (length_keys corpus).
  destruct (sample_loop_ok src corpus d Hv (seq 0 (Z.to_nat (n - 1)))
              (dict_zip (keys corpus) (repeat 0%Z (List.length (keys corpus)))) cp)
    as [sr' [cp' [Hf [Hk' [_ [Hnn' Hsum']]]]]].
  - apply keys_dict_zip_repeat.
  - exact Hcp.
  - rewrite values_dict_zip_repeat. apply nonneg_repeat_zero.
  - rewrite Hf. cbn [bind]. exists sr'. split; [reflexivity|].
    split; [exact Hk'|]. split; [exact Hnn'|].
    rewrite Hsum', values_dict_zip_repeat, sumZ_repeat_zero, length_seq. lia.
Qed.


Lemma divide_counts_ok (sr : dict Z) (n : Z) :
  n <> 0%Z ->
  divide_counts sr n =
  Ok (map (fun pc => (fst pc, Qred (inject_Z (snd pc) / inject_Z n))) sr).
Proof.
  intros Hn. unfold divide_counts.
  assert (Hq : ~ inject_Z n == 0) by (unfold Qeq; simpl; lia).
  assert (H : forall acc,
    fold_m (fun acc '(p, num_samples) =>
              q <- pydiv (inject_Z num_samples) (inject_Z n) ;;
              Ok (acc ++ [(p, q)])) sr acc =
    Ok (acc ++ map (fun pc => (fst pc, Qred (inject_Z (snd pc) / inject_Z n))) sr)).
  { induction sr as [|[p c] sr IH]; intros acc; cbn [fold_m].
    - rewrite app_nil_r. reflexivity.
    - rewrite pydiv_ok by exact Hq. cbn [bind]. rewrite IH, <- app_assoc. reflexivity. }
  exact (H []).
Qed.


Lemma sum_divided (sr : dict Z) (n : Z) :
  n <> 0%Z ->
  sumQ (values (map (fun pc => (fst pc, Qred (inject_Z (snd pc) / inject_Z n))) sr))
  == inject_Z (sumZ (values sr)) / inject_Z n.
Proof.
  intros Hn. assert (Hq : ~ inject_Z n == 0) by (unfold Qeq; simpl; lia).
  unfold values. induction sr as [|[p c] sr IH]; cbn [map sumQ sumZ fst snd].
  - unfold Qdiv. ring.
  - rewrite IH, Qred_correct, inject_Z_plus. field. exact Hq.
Qed.

Lemma keys_divided (sr : dict Z) (n : Z) :
  keys (map (fun pc => (fst pc, Qred (inject_Z (snd pc) / inject_Z n))) sr) = keys sr.
Proof. unfold keys. rewrite map_map. reflexivity. Qed.

Lemma sumZ_nonneg (l : list Z) : Forall nonneg l -> (0 <= sumZ l)%Z.
Proof.
  induction l as [|c l IH]; intros H; simpl; [lia|].
  inversion H as [|x l' Hx Hl]; subst. unfold nonneg in Hx. specialize (IH Hl). lia.
Qed.

Lemma sumZ_zero_all (l : list Z) :
  Forall nonneg l -> sumZ l = 0%Z -> Forall (fun c => c = 0%Z) l.
Proof.
  induction l as [|c l IH]; intros H Hs; constructor;
    inversion H as [|x l' Hx Hl]; subst; unfold nonneg in Hx;
    pose proof (sumZ_nonneg l Hl); simpl in Hs.
  - lia.
  - apply IH; [exact Hl | lia].
Qed.

End Sampling.

(** ** Sums over index ranges *)

Module RangeSums.

Lemma sum_to_ext (n : nat) (f g : nat -> Q) :
  (forall i, (i < n)%nat -> f i == g i) -> sum_to n f == sum_to n g.
Proof.
  induction n as [|n IH]; simpl; intros H; [reflexivity|].
  rewrite IH by (intros i Hi; apply H; lia). rewrite (H n) by lia. reflexivity.
Qed.

Lemma sum_to_ext_eq (n : nat) (f g : nat -> Q) :
  (forall i, (i < n)%nat -> f i = g i) -> sum_to n f = sum_to n g.
Proof.
  induction n as [|n IH]; simpl; intros H; [reflexivity|].
  rewrite IH by (intros i Hi; apply H; lia). rewrite (H n) by lia. reflexivity.
Qed.

Lemma sum_to_le (n : nat) (f g : nat -> Q) :
  (forall i, (i < n)%nat -> f i <= g i) -> sum_to n f <= sum_to n g.
Proof.
  induction n as [|n IH]; simpl; intros H; [apply Qle_refl|].
  apply Qplus_le_compat; [apply IH; intros i Hi; apply H; lia | apply H; lia].
Qed.

Lemma sum_to_nonneg (n : nat) (f : nat -> Q) :
  (forall i, (i < n)%nat -> 0 <= f i) -> 0 <= sum_to n f.
Proof.
  intros H. apply (Qle_trans _ (sum_to n (fun _ => 0))).
  - clear H. induction n as [|n IH]; simpl; [apply Qle_refl | lra].
  - apply sum_to_le, H.
Qed.

Lemma sum_to_plus (n : nat) (f g : nat -> Q) :
  sum_to n (fun i => f i + g i) == sum_to n f + sum_to n g.
Proof. induction n as [|n IH]; simpl; [ring | rewrite IH; ring]. Qed.

Lemma sum_to_minus (n : nat) (f g : nat -> Q) :
  sum_to n (fun i => f i - g i) == sum_to n f - sum_to n g.
Proof. induction n as [|n IH]; simpl; [ring | rewrite IH; ring]. Qed.

Lemma sum_to_scale (n : nat) (c : Q) (f : nat -> Q) :
  sum_to n (fun i => c * f i) == c * sum_to n f.
Proof. induction n as [|n IH]; simpl; [ring | rewrite IH; ring]. Qed.

Lemma sum_to_abs (n : nat) (f : nat -> Q) :
  Qabs (sum_to n f) <= sum_to n (fun i => Qabs (f i)).
Proof.
  induction n as [|n IH]; simpl; [apply Qle_refl|].
  apply (Qle_trans _ _ _ (Qabs_triangle _ _)). apply Qplus_le_compat; [exact IH | apply Qle_refl].
Qed.

Lemma sum_to_swap (n m : nat) (f : nat -> nat -> Q) :
  sum_to n (fun i => sum_to m (fun j => f i j))
  == sum_to m (fun j => sum_to n (fun i => f i j)).
Proof.
  induction n as [|n IH]; simpl.
  - clear f. induction m as [|m IH]; simpl; [reflexivity | rewrite <- IH; ring].
  - rewrite IH. rewrite <- sum_to_plus. reflexivity.
Qed.

(** [sumQ] over a list read position by position. *)
Lemma sumQ_map_nth {A : Type} (h : A -> Q) (l : list A) (dflt : A) :
  sumQ (map h l) == sum_to (List.length l) (fun j => h (nth j l dflt)).
Proof.
  induction l as [|a l IH]; [reflexivity|].
  cbn [map sumQ List.length]. rewrite IH. clear IH.
  assert (Hs : forall (g : nat -> Q) n, sum_to (S n) g == g 0%nat + sum_to n (fun j => g (S j))).
  { intros g n. induction n as [|n IHn]; simpl in *; [ring | rewrite IHn; ring]. }
  rewrite (Hs (fun j => h (nth j (a :: l) dflt))). reflexivity.
Qed.

End RangeSums.

(** ** Dicts read by position *)

Module Positional.
Import DictFacts.

Lemma lookup_nth_keys {V : Type} (r : dict V) (j : nat) (dv : V) :
  NoDup (keys r) -> (j < List.length r)%nat ->
  lookup (nth j (keys r) EmptyString) r = Some (nth j (values r) dv).
Proof.
  revert j. induction r as [|[a b] r IH]; intros j Hnd Hj; simpl in *; [lia|].
  inversion Hnd as [|a' ks Hna Hnd']; subst.
  destruct j as [|j]; simpl.
  - rewrite String.eqb_refl. reflexivity.
  - destruct (String.eqb_spec (nth j (keys r) EmptyString) a) as [E|_].
    + exfalso. apply Hna. rewrite <- E. apply nth_In. unfold keys. rewrite length_map. lia.
    + apply IH; [exact Hnd' | lia].
Qed.

Lemma nth_values_replace {V : Type} (r : dict V) (i : nat) (v dv : V) :
  NoDup (keys r) -> (i < List.length r)%nat ->
  forall j, nth j (values (replace (nth i (keys r) EmptyString) v r)) dv
            = if j =? i then v else nth j (values r) dv.
Proof.
  revert i. induction r as [|[a b] r IH]; intros i Hnd Hi j; simpl in *; [lia|].
  inversion Hnd as [|a' ks Hna Hnd']; subst.
  destruct i as [|i]; simpl.
  - rewrite String.eqb_refl. destruct j; reflexivity.
  - destruct (String.eqb_spec (nth i (keys r) EmptyString) a) as [E|_].
    + exfalso. apply Hna. rewrite <- E. apply nth_In. unfold keys. rewrite length_map. lia.
    + destruct j as [|j]; simpl; [reflexivity|]. apply IH; [exact Hnd' | lia].
Qed.

Lemma nth_values_setitem {V : Type} (r : dict V) (i : nat) (v dv : V) :
  NoDup (keys r) -> (i < List.length r)%nat ->
  keys (setitem r (nth i (keys r) EmptyString) v) = keys r /\
  forall j, nth j (values (setitem r (nth i (keys r) EmptyString) v)) dv
            = if j =? i then v else nth j (values r) dv.
Proof.
  intros Hnd Hi.
  rewrite setitem_present by (rewrite (lookup_nth_keys r i v Hnd Hi); discriminate).
  split; [apply keys_replace | apply nth_values_replace; assumption].
Qed.

Lemma firstn_snoc {A : Type} (l : list A) (k : nat) (dflt : A) :
  (k < List.length l)%nat -> firstn (S k) l = firstn k l ++ [nth k l dflt].
Proof.
  revert k. induction l as [|a l IH]; intros k Hk; simpl in *; [lia|].
  destruct k as [|k]; [reflexivity|]. simpl. f_equal. apply IH. lia.
Qed.

Lemma fold_m_app {A S : Type} (f : S -> A -> result S) (l1 l2 : list A) (s : S) :
  fold_m f (l1 ++ l2) s = bind (fold_m f l1 s) (fold_m f l2).
Proof.
  revert s. induction l1 as [|a l1 IH]; intros s; simpl; [reflexivity|].
  destruct (f s a); simpl; [apply IH | reflexivity].
Qed.

End Positional.

(** ** The in-place pass as a map on rank vectors *)

Module GaussSeidel.
Import RangeSums.

Section Pass.
Variable corpus : corpus_t.
Variable d : Q.

Lemma gs_upto_untouched (k : nat) (x : nat -> Q) (j : nat) :
  (k <= j)%nat -> gs_upto corpus d k x j = x j.
Proof.
  induction k as [|k IH]; intros Hk; simpl; [reflexivity|].
  destruct (Nat.eqb_spec j k); [lia|]. apply IH. lia.
Qed.

Lemma gs_upto_stable (k : nat) (x : nat -> Q) (j : nat) :
  (j < k)%nat -> gs_upto corpus d k x j = gs_upto corpus d (S j) x j.
Proof.
  induction k as [|k IH]; intros Hk; [lia|].
  destruct (Nat.eqb_spec j k) as [->|Hne]; [reflexivity|].
  cbn [gs_upto]. cbv zeta. destruct (Nat.eqb_spec j k); [lia|]. apply IH. lia.
Qed.

Lemma gs_upto_mix (i : nat) (x : nat -> Q) (m : nat) :
  (i <= List.length corpus)%nat ->
  gs_upto corpus d i x m = if m <? i then gs corpus d x m else x m.
Proof.
  intros Hi. destruct (Nat.ltb_spec m i) as [Hm|Hm].
  - unfold gs. rewrite (gs_upto_stable i) by exact Hm.
    rewrite (gs_upto_stable (List.length corpus)) by lia. reflexivity.
  - apply gs_upto_untouched. exact Hm.
Qed.

(** Each position of a pass is computed from the vector in which the
    positions before it already hold their new values. *)
Lemma gs_characterization (x : nat -> Q) (i : nat) :
  (i < List.length corpus)%nat ->
  gs corpus d x i
  = gs_update corpus d i (fun m => if m <? i then gs corpus d x m else x m).
Proof.
  intros Hi. unfold gs at 1. rewrite gs_upto_stable by exact Hi.
  cbn [gs_upto]. cbv zeta. rewrite Nat.eqb_refl.
  unfold gs_update. f_equal. f_equal. apply sum_to_ext_eq.
  intros j _. f_equal. apply gs_upto_mix. lia.
Qed.

Lemma gs_update_ext (i : nat) (u u' : nat -> Q) :
  (forall j, (j < List.length corpus)%nat -> u j == u' j) ->
  gs_update corpus d i u == gs_update corpus d i u'.
Proof.
  intros H. unfold gs_update. apply Qplus_comp; [reflexivity|].
  apply Qmult_comp; [reflexivity|]. apply sum_to_ext. intros j Hj. rewrite H by exact Hj.
  reflexivity.
Qed.

Lemma gs_upto_ext (k : nat) (x y : nat -> Q) :
  (forall j, (j < List.length corpus)%nat -> x j == y j) ->
  forall j, (j < List.length corpus)%nat -> gs_upto corpus d k x j == gs_upto corpus d k y j.
Proof.
  induction k as [|k IH]; intros H j Hj; simpl; [apply H, Hj|].
  destruct (j =? k); [apply gs_update_ext; intros m Hm; apply IH; assumption | apply IH; assumption].
Qed.

Lemma gs_ext (x y : nat -> Q) :
  (forall j, (j < List.length corpus)%nat -> x j == y j) ->
  forall j, (j < List.length corpus)%nat -> gs corpus d x j == gs corpus d y j.
Proof. apply gs_upto_ext. Qed.

End Pass.

End GaussSeidel.

(** ** iterate_pagerank: the code's pass is the vector pass *)

Module IterativeCode.
Import DictFacts QFacts ListSums Sampling RangeSums Positional GaussSeidel.

Lemma link_counter_items (corpus : corpus_t) (r : dict Q) (pg : page) :
  forall (its : list (page * list page)) (acc : Q),
  (forall it, In it its -> lookup (fst it) r <> None) ->
  (forall it, In it its -> eff_links corpus (snd it) <> []) ->
  exists acc',
    fold_m (fun acc '(page_link, links) =>
              let links := match links with [] => keys corpus | _ => links end in
              if mem pg links then
                r <- getitem r page_link ;;
                q <- pydiv r (qlen links) ;;
                Ok (fadd acc q)
              else Ok acc) its acc = Ok acc' /\
    acc' == acc + sumQ (map (fun it =>
                if mem pg (eff_links corpus (snd it))
                then match lookup (fst it) r with Some v => v | None => 0 end
                     / qlen (eff_links corpus (snd it))
                else 0) its).
Proof.
  induction its as [|[pl links] its IH]; intros acc Hl He.
  - exists acc. split; [reflexivity|]. simpl. ring.
  - cbn [fold_m]. cbv beta iota zeta. fold (eff_links corpus links).
    assert (Hne : eff_links corpus links <> []) by exact (He (pl, links) (or_introl eq_refl)).
    assert (Hl' : forall it, In it its -> lookup (fst it) r <> None)
      by (intros it Hit; apply Hl; right; exact Hit).
    assert (He' : forall it, In it its -> eff_links corpus (snd it) <> [])
      by (intros it Hit; apply He; right; exact Hit).
    cbn [map sumQ fst snd].
    destruct (mem pg (eff_links corpus links)).
    + pose proof (Hl (pl, links) (or_introl eq_refl)) as Hpl. cbn [fst] in Hpl.
      unfold getitem. destruct (lookup pl r) as [v|]; [|congruence]. cbn [bind].
      rewrite pydiv_ok by (apply qlen_nz, Hne). cbn [bind].
      destruct (IH (fadd acc (Qred (v / qlen (eff_links corpus links)))) Hl' He')
        as [acc' [Hf Hq]].
      exists acc'. split; [exact Hf|]. rewrite Hq. unfold fadd. rewrite !Qred_correct. ring.
    + destruct (IH acc Hl' He') as [acc' [Hf Hq]].
      exists acc'. split; [exact Hf|]. rewrite Hq. ring.
Qed.

Lemma nth_corpus_fst (corpus : corpus_t) (j : nat) :
  fst (nth j corpus (EmptyString, [])) = nth j (keys corpus) EmptyString.
Proof.
  unfold keys. change EmptyString with (fst (EmptyString, @nil page)) at 2.
  rewrite map_nth. reflexivity.
Qed.

Lemma nth_corpus_snd (corpus : corpus_t) (j : nat) :
  snd (nth j corpus (EmptyString, [])) = nth j (values corpus) [].
Proof.
  unfold values. change (@nil page) with (snd (EmptyString, @nil page)) at 2.
  rewrite map_nth. reflexivity.
Qed.

Lemma eff_links_nonempty (corpus : corpus_t) (links : list page) :
  corpus <> [] -> eff_links corpus links <> [].
Proof.
  intros Hc. unfold eff_links. destruct links; [|discriminate].
  destruct corpus; [congruence | discriminate].
Qed.

(** Lines 127-137 compute [sum_j weight j i * rank_j] over the current dict. *)
Lemma link_counter_ok (corpus : corpus_t) (r : dict Q) (i : nat) :
  NoDup (keys corpus) -> corpus <> [] -> keys r = keys corpus ->
  exists lc,
    link_counter corpus r (nth i (keys corpus) EmptyString) = Ok lc /\
    lc == sum_to (List.length corpus) (fun j => weight corpus j i * vec r j).
Proof.
  intros Hv Hc Hk. unfold link_counter.
  destruct (link_counter_items corpus r (nth i (keys corpus) EmptyString) corpus 0)
    as [lc [Hf Hq]].
  - intros [pl links] Hin. apply lookup_keys. rewrite Hk.
    change pl with (fst (pl, links)). apply in_map, Hin.
  - intros it _. apply eff_links_nonempty, Hc.
  - exists lc. split; [exact Hf|]. rewrite Hq, (sumQ_map_nth _ _ (EmptyString, [])).
    rewrite Qplus_0_l. apply sum_to_ext. intros j Hj.
    rewrite nth_corpus_fst, nth_corpus_snd.
    pose proof Hv as Hnd. rewrite <- Hk in Hnd |- *.
    rewrite (lookup_nth_keys r j 0 Hnd)
      by (rewrite <- length_keys, Hk, length_keys; exact Hj).
    unfold weight, vec. rewrite <- Hk.
    destruct (mem _ _); [|ring].
    field. apply qlen_nz, eff_links_nonempty, Hc.
Qed.

Lemma update_page_ok (corpus : corpus_t) (d : Q) (r : dict Q) (ch : dict xfloat) (i : nat) :
  NoDup (keys corpus) -> corpus <> [] -> keys r = keys corpus ->
  (i < List.length corpus)%nat ->
  exists nr,
    update_page corpus d (qlen corpus) (r, ch) (nth i (keys corpus) EmptyString)
    = Ok (setitem r (nth i (keys corpus) EmptyString) nr,
          setitem ch (nth i (keys corpus) EmptyString) (Fin (Qabs (fsub nr (vec r i))))) /\
    nr == gs_update corpus d i (vec r).
Proof.
  intros Hv Hc Hk Hi.
  destruct (link_counter_ok corpus r i Hv Hc Hk) as [lc [Hl Hq]].
  eexists. split.
  - unfold update_page. rewrite Hl. cbn [bind].
    rewrite pydiv_ok by (apply qlen_nz, Hc). cbn [bind].
    pose proof Hv as Hnd. rewrite <- Hk in Hnd |- *.
    unfold getitem.
    rewrite (lookup_nth_keys r i 0 Hnd) by (rewrite <- length_keys, Hk, length_keys; exact Hi).
    cbn [bind]. reflexivity.
  - 
  unfold gs_update, fadd, fmul, fsub. rewrite !Qred_correct, Hq. reflexivity.
Qed.


(** After the first [k] keys of a pass, the rank dict holds [gs_upto k x]
    and the first [k] changes hold the distance to the old ranks. *)
Lemma pass_prefix (corpus : corpus_t) (d : Q) (r : dict Q) (ch : dict xfloat) (x : nat -> Q) :
  NoDup (keys corpus) -> corpus <> [] -> keys r = keys corpus -> keys ch = keys corpus ->
  (forall j, (j < List.length corpus)%nat -> vec r j == x j) ->
  forall k, (k <= List.length corpus)%nat ->
  exists rk chk,
    fold_m (update_page corpus d (qlen corpus)) (firstn k (keys corpus)) (r, ch) = Ok (rk, chk) /\
    keys rk = keys corpus /\ keys chk = keys corpus /\
    (forall j, (j < List.length corpus)%nat -> vec rk j == gs_upto corpus d k x j) /\
    (forall j, (j < k)%nat -> exists q, nth j (values chk) (Fin 0) = Fin q /\
                                   q == Qabs (gs_upto corpus d k x j - x j)).
Proof.
  intros Hv Hc Hkr Hkc Hx. pose proof Hv as Hnd.
  induction k as [|k IH]; intros Hk.
  - exists r, ch. repeat split; auto. intros j Hj; lia.
  - destruct (IH ltac:(lia)) as [rk [chk [Hf [Hkr' [Hkc' [Hv' Hch']]]]]].
    rewrite (firstn_snoc (keys corpus) k EmptyString) by (rewrite length_keys; lia).
    destruct (update_page_ok corpus d rk chk k Hv Hc Hkr' ltac:(lia)) as [nr [Hu Hnr]].
    assert (Hndr : NoDup (keys rk)) by (rewrite Hkr'; exact Hnd).
    assert (Hlr : (k < List.length rk)%nat)
      by (rewrite <- length_keys, Hkr', length_keys; lia).
    assert (Hndc : NoDup (keys chk)) by (rewrite Hkc'; exact Hnd).
    assert (Hlc : (k < List.length chk)%nat)
      by (rewrite <- length_keys, Hkc', length_keys; lia).
    destruct (nth_values_setitem rk k nr 0 Hndr Hlr) as [Hk1 Hn1].
    destruct (nth_values_setitem chk k (Fin (Qabs (fsub nr (vec rk k)))) (Fin 0) Hndc Hlc)
      as [Hk2 Hn2].
    rewrite Hkr' in Hk1, Hn1. rewrite Hkc' in Hk2, Hn2.
    assert (E1 : vec rk k == x k)
      by (rewrite (Hv' k) by lia; rewrite gs_upto_untouched by lia; reflexivity).
    assert (E2 : gs_update corpus d k (vec rk) == gs_update corpus d k (gs_upto corpus d k x))
      by (apply gs_update_ext; exact Hv').
    eexists; eexists. split.
    { rewrite fold_m_app, Hf. cbn [bind fold_m]. rewrite Hu. reflexivity. }
    split; [exact Hk1|]. split; [exact Hk2|]. split.
    + intros j Hj. unfold vec. rewrite Hn1. cbn [gs_upto]. cbv zeta.
      destruct (Nat.eqb_spec j k) as [->|Hne].
      * rewrite Hnr. exact E2.
      * apply Hv', Hj.
    + intros j Hj. rewrite Hn2. cbn [gs_upto]. cbv zeta.
      destruct (Nat.eqb_spec j k) as [->|Hne].
      * eexists; split; [reflexivity|]. unfold fsub. rewrite Qred_correct.
        apply Qabs_wd. rewrite Hnr, E1, E2. reflexivity.
      * destruct (Hch' j ltac:(lia)) as [q [Hq1 Hq2]]. exists q. split; [exact Hq1|].
        exact Hq2.
Qed.

(** Lines 125-144: a whole pass maps the rank vector [x] to [gs x]. *)
Lemma iterate_pass_ok (corpus : corpus_t) (d : Q) (r : dict Q) (ch : dict xfloat) (x : nat -> Q) :
  NoDup (keys corpus) -> corpus <> [] -> keys r = keys corpus -> keys ch = keys corpus ->
  (forall j, (j < List.length corpus)%nat -> vec r j == x j) ->
  exists r' ch',
    iterate_pass corpus d (r, ch) = Ok (r', ch') /\
    keys r' = keys corpus /\ keys ch' = keys corpus /\
    (forall j, (j < List.length corpus)%nat -> vec r' j == gs corpus d x j) /\
    (forall j, (j < List.length corpus)%nat -> exists q, nth j (values ch') (Fin 0) = Fin q /\
                                   q == Qabs (gs corpus d x j - x j)).
Proof.
  intros Hv Hc Hkr Hkc Hx.
  destruct (pass_prefix corpus d r ch x Hv Hc Hkr Hkc Hx (List.length corpus) (le_n _))
    as [r' [ch' [Hf H]]].
  rewrite firstn_all2 in Hf by (rewrite length_keys; lia).
  exists r', ch'. unfold iterate_pass. cbn [fst]. rewrite Hkr. split; [exact Hf | exact H].
Qed.

End IterativeCode.

(** ** A pass contracts the weighted norm [wnorm] by the factor [d] *)

Module Contraction.
Import DictFacts QFacts ListSums Sampling CountFacts RangeSums GaussSeidel IterativeCode.

Lemma Qmult_le_compat_l (x y z : Q) : x <= y -> 0 <= z -> z * x <= z * y.
Proof.
  intros H Hz. rewrite (Qmult_comm z x), (Qmult_comm z y). apply Qmult_le_compat_r; assumption.
Qed.

Lemma weight_nonneg (corpus : corpus_t) (j i : nat) : 0 <= weight corpus j i.
Proof.
  unfold weight. destruct (mem _ _); [|apply Qle_refl].
  unfold Qdiv. rewrite Qmult_1_l. apply Qinv_le_0_compat, inject_nat_nonneg.
Qed.

Lemma nth_corpus_In (corpus : corpus_t) (j : nat) :
  (j < List.length corpus)%nat ->
  In (nth j (keys corpus) EmptyString, nth j (values corpus) []) corpus.
Proof.
  intros Hj. rewrite <- nth_corpus_fst, <- nth_corpus_snd, <- surjective_pairing.
  apply nth_In, Hj.
Qed.

Lemma eff_links_props (corpus : corpus_t) (j : nat) :
  valid_corpus corpus -> (j < List.length corpus)%nat ->
  NoDup (eff_links corpus (nth j (values corpus) [])) /\
  (forall q, In q (eff_links corpus (nth j (values corpus) [])) -> In q (keys corpus)).
Proof.
  intros Hv Hj. pose proof (nth_corpus_In corpus j Hj) as Hin.
  unfold eff_links. destruct (nth j (values corpus) []) as [|a l] eqn:E.
  - split; [apply valid_keys, Hv | tauto].
  - destruct (valid_links corpus _ _ Hv Hin) as [H1 [_ H3]]. split; assumption.
Qed.

(** Every page hands out exactly its whole rank. *)
Lemma weight_row_sum (corpus : corpus_t) (j : nat) :
  valid_corpus corpus -> corpus <> [] -> (j < List.length corpus)%nat ->
  sum_to (List.length corpus) (fun i => weight corpus j i) == 1.
Proof.
  intros Hv Hc Hj.
  destruct (eff_links_props corpus j Hv Hj) as [Hnd Hsub].
  pose proof (eff_links_nonempty corpus (nth j (values corpus) []) Hc) as Hne.
  set (L := eff_links corpus (nth j (values corpus) [])) in *.
  transitivity (sumQ (map (fun k => if mem k L then 1 / qlen L else 0) (keys corpus))).
  - rewrite (sumQ_map_nth _ _ EmptyString), length_keys. apply sum_to_ext.
    intros i _. reflexivity.
  - transitivity (sumQ (map (fun k => inject_Z (Z.of_nat (cnt k L)) * (1 / qlen L))
                            (keys corpus))).
    + apply sumQ_map_ext. intros k _. rewrite cnt_nodup by exact Hnd.
      change (inject_Z (Z.of_nat 1)) with 1. change (inject_Z (Z.of_nat 0)) with 0.
      destruct (mem k L); ring.
    + rewrite sumQ_map_scale, sumQ_cnt by (try apply valid_keys; assumption).
      field. apply qlen_nz, Hne.
Qed.

Lemma sum_to_single (n : nat) (f : nat -> Q) (j : nat) :
  (forall i, (i < n)%nat -> 0 <= f i) -> (j < n)%nat -> f j <= sum_to n f.
Proof.
  induction n as [|n IH]; intros H Hj; [lia|]. cbn [sum_to].
  assert (0 <= sum_to n f) by (apply sum_to_nonneg; intros i Hi; apply H; lia).
  destruct (Nat.eq_dec j n) as [->|Hne].
  - lra.
  - assert (f j <= sum_to n f) by (apply IH; [intros i Hi; apply H; lia | lia]).
    assert (0 <= f n) by (apply H; lia). lra.
Qed.

Section Norm.
Variable corpus : corpus_t.
Variable d : Q.
Hypothesis Hv : valid_corpus corpus.
Hypothesis Hc : corpus <> [].
Hypothesis Hd0 : 0 <= d.
Hypothesis Hd1 : d <= 1.

Let N := List.length corpus.

Lemma later_share_bounds (j : nat) :
  (j < N)%nat -> 0 <= later_share corpus j /\ later_share corpus j <= 1.
Proof.
  intros Hj. unfold later_share. split.
  - apply sum_to_nonneg. intros i _. destruct (j <? i); [apply weight_nonneg | apply Qle_refl].
  - rewrite <- (weight_row_sum corpus j Hv Hc Hj). apply sum_to_le. intros i _.
    destruct (j <? i); [apply Qle_refl | apply weight_nonneg].
Qed.

(** The part of the outflow of [j] that stays at positions up to [j]. *)
Lemma earlier_share (j : nat) :
  (j < N)%nat ->
  sum_to N (fun i => if j <? i then 0 else weight corpus j i) == 1 - later_share corpus j.
Proof.
  intros Hj. unfold later_share. rewrite <- (weight_row_sum corpus j Hv Hc Hj).
  rewrite <- sum_to_minus. apply sum_to_ext. intros i _. destruct (j <? i); ring.
Qed.

Lemma gs_diff_bound (x y : nat -> Q) (i : nat) :
  (i < N)%nat ->
  Qabs (gs corpus d x i - gs corpus d y i)
  <= d * sum_to N (fun j => weight corpus j i *
                            (if j <? i then Qabs (gs corpus d x j - gs corpus d y j)
                             else Qabs (x j - y j))).
Proof.
  intros Hi.
  rewrite (gs_characterization corpus d x i Hi), (gs_characterization corpus d y i Hi).
  set (u := fun m => if m <? i then gs corpus d x m else x m).
  set (v := fun m => if m <? i then gs corpus d y m else y m).
  assert (E : gs_update corpus d i u - gs_update corpus d i v
              == d * sum_to N (fun j => weight corpus j i * (u j - v j))).
  { unfold gs_update. fold N.
    rewrite (sum_to_ext N (fun j => weight corpus j i * (u j - v j))
               (fun j => weight corpus j i * u j - weight corpus j i * v j))
      by (intros; ring).
    rewrite sum_to_minus. ring. }
  rewrite E, Qabs_Qmult, (Qabs_pos d Hd0).
  apply Qmult_le_compat_l; [|exact Hd0].
  eapply Qle_trans; [apply sum_to_abs|]. apply sum_to_le. intros j _.
  rewrite Qabs_Qmult, (Qabs_pos _ (weight_nonneg corpus j i)).
  unfold u, v. destruct (j <? i); apply Qle_refl.
Qed.

Lemma wnorm_contract (x y : nat -> Q) :
  wnorm corpus d (fun j => gs corpus d x j - gs corpus d y j)
  <= d * wnorm corpus d (fun j => x j - y j).
Proof.
  unfold wnorm. fold N.
  set (F := fun j => Qabs (gs corpus d x j - gs corpus d y j)).
  set (E := fun j => Qabs (x j - y j)).
  set (A := later_share corpus).
  change (sum_to N (fun j => (1 - d * A j) * F j) <= d * sum_to N (fun j => (1 - d * A j) * E j)).
  assert (HF : sum_to N F <= d * sum_to N (fun j => F j * A j + E j * (1 - A j))).
  { apply (Qle_trans _ (sum_to N (fun i => d * sum_to N (fun j => weight corpus j i *
                              (if j <? i then F j else E j))))).
    { apply sum_to_le. intros i Hi. apply gs_diff_bound, Hi. }
    rewrite sum_to_scale. apply Qmult_le_compat_l; [|exact Hd0].
    rewrite sum_to_swap. apply Qle_lteq. right. apply sum_to_ext. intros j Hj.
    rewrite (sum_to_ext N _ (fun i => (if j <? i then weight corpus j i else 0) * F j
                                 + (if j <? i then 0 else weight corpus j i) * E j))
      by (intros i _; destruct (j <? i); ring).
    rewrite sum_to_plus.
    rewrite (sum_to_ext N (fun i => (if j <? i then weight corpus j i else 0) * F j)
               (fun i => F j * (if j <? i then weight corpus j i else 0)))
      by (intros; ring).
    rewrite (sum_to_ext N (fun i => (if j <? i then 0 else weight corpus j i) * E j)
               (fun i => E j * (if j <? i then 0 else weight corpus j i)))
      by (intros; ring).
    rewrite !sum_to_scale, (earlier_share j Hj). reflexivity. }
  rewrite sum_to_plus in HF.
  assert (HL : sum_to N (fun j => (1 - d * A j) * F j)
               == sum_to N F - d * sum_to N (fun j => F j * A j)).
  { rewrite <- sum_to_scale, <- sum_to_minus. apply sum_to_ext. intros; ring. }
  assert (HR : sum_to N (fun j => E j * (1 - A j)) <= sum_to N (fun j => (1 - d * A j) * E j)).
  { apply sum_to_le. intros j Hj. destruct (later_share_bounds j Hj) as [HA0 HA1].
    assert (0 <= E j) by apply Qabs_nonneg. fold A in HA0, HA1.
    assert (0 <= E j * A j * (1 - d)).
    { apply Qmult_le_0_compat; [apply Qmult_le_0_compat|]; lra. }
    nra. }
  assert (HdR : d * sum_to N (fun j => E j * (1 - A j))
                <= d * sum_to N (fun j => (1 - d * A j) * E j))
    by (apply Qmult_le_compat_l; assumption).
  rewrite HL. lra.
Qed.

(** A single change is bounded by the norm. *)
Lemma abs_le_wnorm (e : nat -> Q) (j : nat) :
  (j < N)%nat -> (1 - d) * Qabs (e j) <= wnorm corpus d e.
Proof.
  intros Hj. unfold wnorm. fold N.
  assert (Ht : forall i, (i < N)%nat -> 0 <= (1 - d * later_share corpus i) * Qabs (e i)).
  { intros i Hi. destruct (later_share_bounds i Hi) as [HA0 HA1].
    apply Qmult_le_0_compat; [|apply Qabs_nonneg]. nra. }
  eapply Qle_trans; [|apply (sum_to_single N _ j Ht Hj)].
  destruct (later_share_bounds j Hj) as [HA0 HA1].
  pose proof (Qabs_nonneg (e j)).
  assert (0 <= d * (1 - later_share corpus j) * Qabs (e j)).
  { apply Qmult_le_0_compat; [apply Qmult_le_0_compat|]; lra. }
  nra.
Qed.

Lemma wnorm_nonneg (e : nat -> Q) : 0 <= wnorm corpus d e.
Proof.
  unfold wnorm. apply sum_to_nonneg. intros i Hi. destruct (later_share_bounds i Hi) as [HA0 HA1].
  apply Qmult_le_0_compat; [|apply Qabs_nonneg]. nra.
Qed.

End Norm.

End Contraction.

(** ** iterate_pagerank terminates when [damping_factor < 1] *)

Module Termination.
Import DictFacts QFacts ListSums Sampling RangeSums GaussSeidel IterativeCode Contraction.

Lemma iterate_loop_S (f : nat) (corpus : corpus_t) (d : Q) (st : dict Q * dict xfloat) :
  iterate_loop (S f) corpus d st =
  if existsb exceeds_threshold (values (snd st)) then
    match iterate_pass corpus d st with
    | Ok st' => iterate_loop f corpus d st'
    | Err e => Some (Err e)
    end
  else Some (Ok (fst st)).
Proof. reflexivity. Qed.

(** The loop condition of line 124 is false once every change is at most 0.001. *)
Lemma no_exceed (ch : dict xfloat) :
  (forall j, (j < List.length ch)%nat ->
     exists q, nth j (values ch) (Fin 0) = Fin q /\ q <= 1 # 1000) ->
  existsb exceeds_threshold (values ch) = false.
Proof.
  intros H. apply not_true_is_false. intros Hx.
  apply existsb_exists in Hx as [v [Hin Hv]].
  apply (In_nth _ _ (Fin 0)) in Hin as [j [Hj Hn]].
  unfold values in Hj. rewrite length_map in Hj.
  destruct (H j Hj) as [q [Hq Hle]]. rewrite Hq in Hn. subst v.
  cbn [exceeds_threshold] in Hv. apply Qle_bool_iff in Hle. rewrite Hle in Hv. discriminate.
Qed.

Lemma nat_above (q : Q) : exists K : nat, q <= inject_Z (Z.of_nat K).
Proof.
  exists (Z.to_nat (Qceiling q)). eapply Qle_trans; [apply Qle_ceiling|].
  rewrite <- Zle_Qle. lia.
Qed.

Lemma inject_nat_le (a b : nat) : (a <= b)%nat -> inject_Z (Z.of_nat a) <= inject_Z (Z.of_nat b).
Proof. intros H. rewrite <- Zle_Qle. lia. Qed.

Section Run.
Variable corpus : corpus_t.
Variable d : Q.
Hypothesis Hv : valid_corpus corpus.
Hypothesis Hc : corpus <> [].
Hypothesis Hd0 : 0 <= d.
Hypothesis Hd1 : d < 1.
Variable x0 : nat -> Q.

Let N := List.length corpus.

(** The norm of the change made by pass [k + 1]. *)
Let D (k : nat) : Q :=
  wnorm corpus d (fun j => gs_iter corpus d (S k) x0 j - gs_iter corpus d k x0 j).

Lemma D_step (k : nat) : D (S k) <= d * D k.
Proof.
  exact (wnorm_contract corpus d Hv Hc Hd0 (Qlt_le_weak _ _ Hd1)
           (gs_iter corpus d (S k) x0) (gs_iter corpus d k x0)).
Qed.

Lemma D_decay (k : nat) : D k * (1 + inject_Z (Z.of_nat k) * (1 - d)) <= D O.
Proof.
  induction k as [|k IH].
  - change (inject_Z (Z.of_nat 0)) with 0. apply Qle_lteq. right. ring.
  - rewrite inject_nat_S. set (kq := inject_Z (Z.of_nat k)) in *.
    assert (Hk : 0 <= kq) by apply inject_nat_nonneg.
    assert (HD : 0 <= D k) by exact (wnorm_nonneg corpus d Hv Hc Hd0 (Qlt_le_weak _ _ Hd1) _).
    assert (Hpos : 0 <= 1 + (kq + 1) * (1 - d)).
    { assert (0 <= (kq + 1) * (1 - d)) by (apply Qmult_le_0_compat; lra). lra. }
    assert (H1 : D (S k) * (1 + (kq + 1) * (1 - d)) <= d * D k * (1 + (kq + 1) * (1 - d)))
      by (apply Qmult_le_compat_r; [apply D_step | exact Hpos]).
    assert (H2 : 0 <= D k * ((1 - d) * (1 - d)) * (kq + 1)).
    { apply Qmult_le_0_compat; [apply Qmult_le_0_compat|]; try lra.
      apply Qmult_le_0_compat; lra. }
    lra.
Qed.

(** From some pass on, every change is at most 0.001. *)
Lemma changes_small :
  exists K, forall k, (K <= k)%nat -> forall j, (j < N)%nat ->
    Qabs (gs_iter corpus d (S k) x0 j - gs_iter corpus d k x0 j) <= 1 # 1000.
Proof.
  set (h := 1 - d). assert (Hh : 0 < h) by (unfold h; lra).
  assert (Hhh : 0 < h * h) by (apply Qmult_lt_0_compat; exact Hh).
  destruct (nat_above (1000 * D O / (h * h))) as [K HK].
  exists K. intros k Hk j Hj.
  set (kq := inject_Z (Z.of_nat k)).
  assert (Hkq : 1000 * D O / (h * h) <= kq)
    by (eapply Qle_trans; [exact HK | apply inject_nat_le, Hk]).
  assert (HC : 1000 * D O <= kq * (h * h)).
  { setoid_replace (1000 * D O) with (1000 * D O / (h * h) * (h * h))
      by (field; intro Hz; rewrite Hz in Hhh; apply (Qlt_irrefl 0), Hhh).
    apply Qmult_le_compat_r; [exact Hkq | apply Qlt_le_weak, Hhh]. }
  assert (Hkq0 : 0 <= kq) by apply inject_nat_nonneg.
  pose proof (D_decay k) as HB. fold kq h in HB.
  pose proof (abs_le_wnorm corpus d Hv Hc Hd0 (Qlt_le_weak _ _ Hd1)
                (fun j => gs_iter corpus d (S k) x0 j - gs_iter corpus d k x0 j) j Hj) as HA.
  fold h in HA. fold (D k) in HA. cbv beta in HA.
  set (e := Qabs (gs_iter corpus d (S k) x0 j - gs_iter corpus d k x0 j)) in *.
  destruct (Qlt_le_dec (1 # 1000) e) as [HE|HE]; [exfalso|exact HE].
  assert (Hp : 0 < h * (1 + kq * h)).
  { apply Qmult_lt_0_compat; [exact Hh|].
    assert (0 <= kq * h) by (apply Qmult_le_0_compat; lra). lra. }
  assert (P1 : h * e * (1 + kq * h) <= D k * (1 + kq * h)).
  { apply Qmult_le_compat_r; [exact HA|].
    assert (0 <= kq * h) by (apply Qmult_le_0_compat; lra). lra. }
  assert (P2 : (1 # 1000) * (h * (1 + kq * h)) < e * (h * (1 + kq * h)))
    by (apply Qmult_lt_compat_r; assumption).
  lra.
Qed.

(** The loop of lines 124-144 from a state after pass [m + 1]. *)
Lemma loop_done (K : nat) :
  (forall k, (K <= k)%nat -> forall j, (j < N)%nat ->
     Qabs (gs_iter corpus d (S k) x0 j - gs_iter corpus d k x0 j) <= 1 # 1000) ->
  forall f m r ch,
  keys r = keys corpus -> keys ch = keys corpus ->
  (forall j, (j < N)%nat -> vec r j == gs_iter corpus d (S m) x0 j) ->
  (forall j, (j < N)%nat -> exists q, nth j (values ch) (Fin 0) = Fin q /\
        q == Qabs (gs_iter corpus d (S m) x0 j - gs_iter corpus d m x0 j)) ->
  (K <= m + f)%nat ->
  exists res, iterate_loop (S f) corpus d (r, ch) = Some (Ok res) /\ keys res = keys corpus.
Proof.
  intros HK f. induction f as [|f IH]; intros m r ch Hkr Hkc Hr Hch Hf;
    rewrite iterate_loop_S; cbn [snd fst].
  - rewrite no_exceed; [exists r; split; [reflexivity | exact Hkr]|].
    intros j Hj. rewrite <- length_keys, Hkc, length_keys in Hj.
    destruct (Hch j Hj) as [q [Hq Hqe]]. exists q. split; [exact Hq|].
    rewrite Hqe. apply HK; [lia | exact Hj].
  - destruct (existsb exceeds_threshold (values ch)); [|exists r; split; [reflexivity | exact Hkr]].
    destruct (iterate_pass_ok corpus d r ch (gs_iter corpus d (S m) x0) (valid_keys corpus Hv) Hc
              Hkr Hkc Hr)
      as [r' [ch' [Hp [Hkr' [Hkc' [Hr' Hch']]]]]].
    rewrite Hp. apply (IH (S m) r' ch' Hkr' Hkc' Hr' Hch'). lia.
Qed.

End Run.

(** Lines 117-146 return a result for every valid non-empty corpus when
    [0 <= damping_factor < 1], given enough passes; it ranks the pages of
    the corpus. *)
Lemma iterate_terminates_keys (corpus : corpus_t) (d : Q) :
  valid_corpus corpus -> corpus <> [] -> 0 <= d -> d < 1 ->
  exists fuel r, iterate_pagerank fuel corpus d = Some (Ok r) /\ keys r = keys corpus.
Proof.
  intros Hv Hc Hd0 Hd1.
  unfold iterate_pagerank, iterate_init.
  change (inject_Z (Z.of_nat (List.length corpus))) with (qlen corpus).
  rewrite pydiv_ok by (apply qlen_nz, Hc). cbn [bind].
  set (v := Qred (1 / qlen corpus)).
  set (r0 := dict_zip (keys corpus) (repeat v (List.length corpus))).
  set (ch0 := dict_zip (keys corpus) (repeat Inf (List.length corpus))).
  assert (Hk0 : keys r0 = keys corpus)
    by (unfold r0; rewrite <- (length_keys corpus); apply keys_dict_zip_repeat).
  assert (Hc0 : keys ch0 = keys corpus)
    by (unfold ch0; rewrite <- (length_keys corpus); apply keys_dict_zip_repeat).
  assert (Hvals : values ch0 = repeat Inf (List.length corpus))
    by (unfold ch0; rewrite <- (length_keys corpus); apply values_dict_zip_repeat).
  assert (Hex : existsb exceeds_threshold (repeat Inf (List.length corpus)) = true)
    by (destruct corpus; [congruence | reflexivity]).
  destruct (changes_small corpus d Hv Hc Hd0 Hd1 (vec r0)) as [K HK].
  exists (S (S K)).
  rewrite iterate_loop_S. cbn [snd fst]. rewrite Hvals, Hex.
  destruct (iterate_pass_ok corpus d r0 ch0 (vec r0) (valid_keys corpus Hv) Hc Hk0 Hc0
              (fun j _ => Qeq_refl _))
    as [r1 [ch1 [Hp [Hkr1 [Hkc1 [Hr1 Hch1]]]]]].
  rewrite Hp.
  destruct (loop_done corpus d Hv Hc (vec r0) K HK K O r1 ch1 Hkr1 Hkc1 Hr1 Hch1
              (le_n _)) as [res [Hres Hk]].
  exists res. split; assumption.
Qed.


End Termination.

(** ** What the estimators return *)

Module Totality.
Import DictFacts QFacts Sampling GaussSeidel IterativeCode Termination.




(** Lines 125-144 update the ranks in place: position [i] is computed from
    the new ranks of the positions before it and the old ranks of the others,
    and its change is the distance between its new and old rank. *)
Lemma iterate_pass_in_place (corpus : corpus_t) (d : Q) (r : dict Q) (ch : dict xfloat) :
  NoDup (keys corpus) -> corpus <> [] -> keys r = keys corpus -> keys ch = keys corpus ->
  exists r' ch',
    iterate_pass corpus d (r, ch) = Ok (r', ch') /\
    keys r' = keys corpus /\ keys ch' = keys corpus /\
    forall i, (i < List.length corpus)%nat ->
      vec r' i == gs_update corpus d i (fun j => if j <? i then vec r' j else vec r j) /\
      exists q, nth i (values ch') (Fin 0) = Fin q /\ q == Qabs (vec r' i - vec r i).
Proof.
  intros Hv Hc Hkr Hkc.
  destruct (iterate_pass_ok corpus d r ch (vec r) Hv Hc Hkr Hkc
              (fun j _ => Qeq_refl _))
    as [r' [ch' [Hp [Hkr' [Hkc' [Hr' Hch']]]]]].
  exists r', ch'. split; [exact Hp|]. split; [exact Hkr'|]. split; [exact Hkc'|].
  intros i Hi. split.
  - rewrite (Hr' i Hi), (gs_characterization corpus d (vec r) i Hi).
    apply gs_update_ext. intros j Hj. destruct (j <? i); [symmetry; apply Hr', Hj | reflexivity].
  - destruct (Hch' i Hi) as [q [Hq Hqe]]. exists q. split; [exact Hq|].
    rewrite Hqe, (Hr' i Hi). reflexivity.
Qed.











End Totality.

(** ** crawl builds a valid link graph *)

Module CrawlFacts.
Import DictFacts.

Lemma lookup_snoc {V : Type} (k k' : page) (v : V) (d : dict V) :
  lookup k (d ++ [(k', v)]) =
  match lookup k d with
  | Some x => Some x
  | None => if String.eqb k k' then Some v else None
  end.
Proof.
  induction d as [|[a b] d IH]; simpl; [reflexivity|].
  destruct (String.eqb k a); [reflexivity | exact IH].
Qed.

Lemma lookup_setitem {V : Type} (d : dict V) (k k' : page) (v : V) :
  lookup k (setitem d k' v) = if String.eqb k k' then Some v else lookup k d.
Proof.
  unfold setitem. destruct (lookup k' d) eqn:E.
  - apply lookup_replace. congruence.
  - rewrite lookup_snoc. destruct (String.eqb_spec k k') as [->|Hne].
    + rewrite E. reflexivity.
    + destruct (lookup k d); reflexivity.
Qed.

Lemma keys_setitem_In {V : Type} (d : dict V) (k : page) (v : V) (x : page) :
  In x (keys (setitem d k v)) <-> x = k \/ In x (keys d).
Proof.
  rewrite <- !lookup_keys, lookup_setitem.
  destruct (String.eqb_spec x k) as [->|Hne].
  - split; [intros _; left; reflexivity | discriminate].
  - split; [intros H; right; exact H | intros [H|H]; [contradiction | exact H]].
Qed.

Lemma NoDup_snoc (l : list page) (x : page) : NoDup l -> ~ In x l -> NoDup (l ++ [x]).
Proof.
  induction l as [|a l IH]; simpl; intros Hnd Hx.
  - constructor; [intros []|constructor].
  - inversion Hnd as [|a' l' Ha Hl]; subst. constructor.
    + rewrite in_app_iff. intros [H|[H|[]]]; [contradiction | subst; apply Hx; left; reflexivity].
    + apply IH; [exact Hl | intros H; apply Hx; right; exact H].
Qed.

Lemma keys_setitem_NoDup {V : Type} (d : dict V) (k : page) (v : V) :
  NoDup (keys d) -> NoDup (keys (setitem d k v)).
Proof.
  unfold setitem. destruct (lookup k d) eqn:E; intros H.
  - rewrite keys_replace. exact H.
  - unfold keys in *. rewrite map_app. apply NoDup_snoc; [exact H|].
    change (~ In k (keys d)). rewrite <- lookup_keys. congruence.
Qed.

Lemma keys_setitem_present {V : Type} (d : dict V) (k : page) (v : V) :
  In k (keys d) -> keys (setitem d k v) = keys d.
Proof.
  intros H. rewrite setitem_present by (apply lookup_keys, H). apply keys_replace.
Qed.

Lemma In_lookup {V : Type} (d : dict V) (k : page) (v : V) :
  NoDup (keys d) -> In (k, v) d -> lookup k d = Some v.
Proof.
  induction d as [|[a b] d IH]; simpl; intros Hnd Hin; [contradiction|].
  inversion Hnd as [|a' l' Ha Hl]; subst.
  destruct Hin as [E|Hin].
  - injection E as -> ->. rewrite String.eqb_refl. reflexivity.
  - destruct (String.eqb_spec k a) as [->|Hne].
    + exfalso. apply Ha. change a with (fst (a, v)). apply in_map, Hin.
    + apply IH; assumption.
Qed.

Lemma NoDup_nodupb (l : list page) : NoDup l -> nodupb l = true.
Proof.
  induction l as [|x l IH]; simpl; intros H; [reflexivity|].
  inversion H as [|x' l' Hx Hl]; subst.
  apply andb_true_iff. split; [|apply IH, Hl].
  apply negb_true_iff, mem_false_not_In, Hx.
Qed.

Section Crawled.
Variable findall_href : string -> list string.
Variable dir : directory.

(** The link set line 40 stores for [f] when its text is [s]. *)
Let link_set (f : page) (s : string) : list page :=
  remove string_dec f (nodup string_dec (findall_href s)).

(** The cut of lines 44-47 against the page names [ks]. *)
Let cut (ks : list page) (l : list page) : list page :=
  nodup string_dec (filter (fun link => mem link ks) l).

(** Every [.html] entry of [names] can be opened and read (line 37-38). *)
Let readable (names : list string) : Prop :=
  forall f, In f names -> endswith f ".html"%string = true -> exists s, read_file dir f = Ok s.

Lemma readable_dec (names : list string) :
  readable names \/
  exists f e, In f names /\ endswith f ".html"%string = true /\ read_file dir f = Err e.
Proof.
  induction names as [|n names IH].
  - left. intros f [].
  - destruct IH as [IH|[f [e [Hf [Hh Hr]]]]].
    + destruct (endswith n ".html"%string) eqn:E.
      * destruct (read_file dir n) as [s|e] eqn:R.
        -- left. intros f [<-|Hf] Hh; [exists s; exact R | apply IH; assumption].
        -- right. exists n, e. split; [left; reflexivity|]. split; assumption.
      * left. intros f [<-|Hf] Hh; [congruence | apply IH; assumption].
    + right. exists f, e. split; [right; exact Hf|]. split; assumption.
Qed.

Lemma crawl_read_inv (names : list string) :
  forall pages : dict (list page),
  NoDup (keys pages) ->
  (forall f l, lookup f pages = Some l -> exists s, read_file dir f = Ok s /\ l = link_set f s) ->
  readable names ->
  exists res,
    fold_m (fun pages filename =>
              if negb (endswith filename ".html"%string) then Ok pages
              else
                contents <- read_file dir filename ;;
                let links := findall_href contents in
                Ok (setitem pages filename
                      (remove string_dec filename (nodup string_dec links))))
           names pages = Ok res /\
    NoDup (keys res) /\
    (forall f l, lookup f res = Some l -> exists s, read_file dir f = Ok s /\ l = link_set f s) /\
    (forall f, In f (keys res) <->
               In f (keys pages) \/ (In f names /\ endswith f ".html"%string = true)).
Proof.
  induction names as [|n names IH]; intros pages Hnd Hl Hr; cbn [fold_m].
  - exists pages. split; [reflexivity|]. split; [exact Hnd|]. split; [exact Hl|].
    intros f. simpl. tauto.
  - assert (Hr' : readable names) by (intros f Hf Hh; apply Hr; [right; exact Hf | exact Hh]).
    destruct (endswith n ".html"%string) eqn:E; cbn [negb bind].
    + destruct (Hr n (or_introl eq_refl) E) as [s Hs]. rewrite Hs. cbn [bind].
      destruct (IH (setitem pages n (link_set n s))) as [res [Hf [H1 [H2 H3]]]].
      { apply keys_setitem_NoDup, Hnd. }
      { intros f l. rewrite lookup_setitem. destruct (String.eqb_spec f n) as [->|Hne].
        - intros Hs'. injection Hs' as <-. exists s. split; [exact Hs | reflexivity].
        - apply Hl. }
      { exact Hr'. }
      exists res. split; [exact Hf|]. split; [exact H1|]. split; [exact H2|].
      intros f. rewrite H3, keys_setitem_In. simpl. split.
      * intros [[->|H]|[H Hh]]; [right; split; [left; reflexivity | exact E] | left; exact H |].
        right; split; [right; exact H | exact Hh].
      * intros [H|[[<-|H] Hh]]; [left; right; exact H | left; left; reflexivity |].
        right; split; assumption.
    + destruct (IH pages Hnd Hl Hr') as [res [Hf [H1 [H2 H3]]]].
      exists res. split; [exact Hf|]. split; [exact H1|]. split; [exact H2|].
      intros f. rewrite H3. simpl. split.
      * intros [H|[H Hh]]; [left; exact H | right; split; [right; exact H | exact Hh]].
      * intros [H|[[<-|H] Hh]]; [left; exact H | congruence |].
        right; split; assumption.
Qed.

Lemma crawl_read_fail (names : list string) :
  forall pages : dict (list page),
  (exists f e, In f names /\ endswith f ".html"%string = true /\ read_file dir f = Err e) ->
  exists e,
    fold_m (fun pages filename =>
              if negb (endswith filename ".html"%string) then Ok pages
              else
                contents <- read_file dir filename ;;
                let links := findall_href contents in
                Ok (setitem pages filename
                      (remove string_dec filename (nodup string_dec links))))
           names pages = Err e.
Proof.
  induction names as [|n names IH]; intros pages [f [e [Hf [Hh Hr]]]]; [destruct Hf|].
  cbn [fold_m]. destruct (endswith n ".html"%string) eqn:E; cbn [negb bind].
  - destruct (read_file dir n) as [s|e0] eqn:R; cbn [bind].
    + apply IH. exists f, e. split; [|split; assumption].
      destruct Hf as [<-|Hf]; [congruence | exact Hf].
    + exists e0. reflexivity.
  - apply IH. exists f, e. split; [|split; assumption].
    destruct Hf as [<-|Hf]; [congruence | exact Hf].
Qed.

(** What a successful [crawl_read] returns: the [.html] entries of the
    listing, each with the link set of its text. *)
Lemma crawl_read_spec (pages : dict (list page)) :
  crawl_read findall_href dir = Ok pages ->
  exists names, listdir dir = Ok names /\ readable names /\
    NoDup (keys pages) /\
    (forall f l, lookup f pages = Some l -> exists s, read_file dir f = Ok s /\ l = link_set f s) /\
    (forall f, In f (keys pages) <-> In f names /\ endswith f ".html"%string = true).
Proof.
  unfold crawl_read. destruct (listdir dir) as [names|e]; cbn [bind]; [|discriminate].
  intros Hp. exists names. split; [reflexivity|].
  destruct (readable_dec names) as [Hr|Hu].
  - destruct (crawl_read_inv names [] (NoDup_nil _) ltac:(discriminate) Hr)
      as [res [Hf [H1 [H2 H3]]]].
    pose proof (eq_trans (eq_sym Hf) Hp) as E. injection E as <-.
    split; [exact Hr|]. split; [exact H1|]. split; [exact H2|].
    intros f. rewrite H3. simpl. tauto.
  - destruct (crawl_read_fail names [] Hu) as [e He].
    pose proof (eq_trans (eq_sym He) Hp) as E. discriminate E.
Qed.

Lemma crawl_read_total (names : list string) :
  listdir dir = Ok names -> readable names ->
  exists pages, crawl_read findall_href dir = Ok pages.
Proof.
  intros Hl Hr. unfold crawl_read. rewrite Hl. cbn [bind].
  destruct (crawl_read_inv names [] (NoDup_nil _) ltac:(discriminate) Hr) as [res [Hf _]].
  exists res. exact Hf.
Qed.

Lemma crawl_read_error :
  (exists e, listdir dir = Err e) \/
  (exists names f e, listdir dir = Ok names /\ In f names /\
     endswith f ".html"%string = true /\ read_file dir f = Err e) ->
  exists e, crawl_read findall_href dir = Err e.
Proof.
  unfold crawl_read. intros [[e He]|[names [f [e [Hl Hu]]]]].
  - exists e. rewrite He. reflexivity.
  - rewrite Hl. cbn [bind]. apply crawl_read_fail. exists f, e. exact Hu.
Qed.

Lemma crawl_filter_inv (K : list page) (ks : list page) :
  NoDup ks -> (forall k, In k ks -> In k K) ->
  forall p : dict (list page), keys p = K ->
  exists p',
    fold_m (fun pages' filename =>
              l <- getitem pages' filename ;;
              Ok (setitem pages' filename
                    (nodup string_dec (filter (fun link => mem link (keys pages')) l))))
           ks p = Ok p' /\
    keys p' = K /\
    (forall f, lookup f p' =
               if mem f ks then option_map (cut K) (lookup f p) else lookup f p).
Proof.
  induction ks as [|k ks IH]; intros Hnd Hsub p Hk.
  - exists p. split; [reflexivity|]. split; [exact Hk|]. intros f. reflexivity.
  - apply NoDup_cons_iff in Hnd as [Hkn Hnd'].
    assert (HkK : In k (keys p)) by (rewrite Hk; apply Hsub; left; reflexivity).
    pose proof HkK as Hl. rewrite <- lookup_keys in Hl.
    destruct (lookup k p) as [l|] eqn:El; [|congruence].
    cbn [fold_m]. unfold getitem at 1. rewrite El. cbn [bind]. rewrite Hk.
    destruct (IH Hnd' (fun x Hx => Hsub x (or_intror Hx)) (setitem p k (cut K l)))
      as [p' [Hf [Hk' Hlk]]].
    { rewrite keys_setitem_present by exact HkK. exact Hk. }
    exists p'. split; [exact Hf|]. split; [exact Hk'|]. intros f.
    rewrite Hlk, lookup_setitem. cbn [mem existsb]. fold (mem f ks).
    destruct (String.eqb_spec f k) as [->|Hne]; cbn [orb].
    + apply mem_false_not_In in Hkn. rewrite Hkn, El. reflexivity.
    + reflexivity.
Qed.

(** Lines 43-47 never fail: they keep the pages and cut every link set. *)
Lemma crawl_spec (pages : dict (list page)) :
  crawl_read findall_href dir = Ok pages ->
  exists c,
    crawl findall_href dir = Ok c /\
    keys c = keys pages /\
    (forall f, lookup f c = option_map (cut (keys pages)) (lookup f pages)).
Proof.
  intros Hp. destruct (crawl_read_spec pages Hp) as [names [_ [_ [Hnd _]]]].
  destruct (crawl_filter_inv (keys pages) (keys pages) Hnd (fun k H => H) pages eq_refl)
    as [c [Hf [Hk Hl]]].
  exists c. unfold crawl. rewrite Hp. cbn [bind].
  split; [exact Hf|]. split; [exact Hk|]. intros f. rewrite Hl.
  destruct (mem f (keys pages)) eqn:E; [reflexivity|].
  apply mem_false_not_In in E. rewrite <- lookup_keys in E.
  destruct (lookup f pages); [exfalso; apply E; discriminate | reflexivity].
Qed.

Lemma crawl_ok_read (c : corpus_t) :
  crawl findall_href dir = Ok c ->
  exists pages, crawl_read findall_href dir = Ok pages /\
    keys c = keys pages /\
    (forall f, lookup f c = option_map (cut (keys pages)) (lookup f pages)).
Proof.
  intros Hc. unfold crawl in Hc.
  destruct (crawl_read findall_href dir) as [pages|e] eqn:Hp; cbn [bind] in Hc; [|discriminate].
  destruct (crawl_spec pages Hp) as [c' [Hc' [Hk Hl]]].
  unfold crawl in Hc'. rewrite Hp in Hc'. cbn [bind] in Hc'. rewrite Hc in Hc'.
  injection Hc' as <-. exists pages. split; [reflexivity|]. split; assumption.
Qed.

Lemma crawl_links_spec (c : corpus_t) (f : page) (links : list page) :
  crawl findall_href dir = Ok c -> lookup f c = Some links ->
  exists s, read_file dir f = Ok s /\ NoDup links /\
  forall q, In q links <-> In q (findall_href s) /\ q <> f /\ In q (keys c).
Proof.
  intros Hc Hl. destruct (crawl_ok_read c Hc) as [pages [Hp [Hk Hlk]]].
  destruct (crawl_read_spec pages Hp) as [names [_ [_ [_ [Hls _]]]]].
  rewrite Hlk in Hl. destruct (lookup f pages) as [l|] eqn:E; [|discriminate].
  cbn [option_map] in Hl. injection Hl as <-.
  destruct (Hls f l E) as [s [Hs ->]].
  exists s. split; [exact Hs|].
  split; [apply NoDup_nodup|]. intros q. unfold cut, link_set.
  rewrite nodup_In, filter_In, mem_In, Hk. split.
  - intros [Hq HK]. apply in_remove in Hq as [Hq Hne]. rewrite nodup_In in Hq. tauto.
  - intros [Hq [Hne HK]]. split; [|exact HK].
    apply in_in_remove; [exact Hne|]. rewrite nodup_In. exact Hq.
Qed.

Lemma crawl_valid_spec (c : corpus_t) :
  crawl findall_href dir = Ok c -> valid_corpus c.
Proof.
  intros Hc. destruct (crawl_ok_read c Hc) as [pages [Hp [Hk _]]].
  destruct (crawl_read_spec pages Hp) as [names [_ [_ [Hnd _]]]]. rewrite <- Hk in Hnd.
  unfold valid_corpus, valid_corpusb. apply andb_true_iff. split; [apply NoDup_nodupb, Hnd|].
  apply forallb_forall. intros [p links] Hin.
  destruct (crawl_links_spec c p links Hc (In_lookup c p links Hnd Hin)) as [s [_ [Hl Hq]]].
  apply andb_true_iff. split; [apply andb_true_iff; split|].
  - apply NoDup_nodupb, Hl.
  - apply negb_true_iff, mem_false_not_In. intros H. apply Hq in H. tauto.
  - apply forallb_forall. intros q H. apply mem_In. apply Hq in H. tauto.
Qed.

End Crawled.

End CrawlFacts.

(** ** What the loop of lines 124-144 keeps *)

Module LoopFacts.
Import DictFacts QFacts Sampling RangeSums Positional GaussSeidel IterativeCode Contraction
  Termination Totality.

(** The start state of lines 117-121 on a non-empty corpus. *)
Lemma iterate_init_ok (corpus : corpus_t) :
  corpus <> [] ->
  iterate_init corpus =
  Ok (dict_zip (keys corpus) (repeat (Qred (1 / qlen corpus)) (List.length (keys corpus))),
      dict_zip (keys corpus) (repeat Inf (List.length (keys corpus)))).
Proof.
  intros Hc. unfold iterate_init. rewrite length_keys.
  change (inject_Z (Z.of_nat (List.length corpus))) with (qlen corpus).
  rewrite pydiv_ok by (apply qlen_nz, Hc). reflexivity.
Qed.

Lemma init_changes_exceed (corpus : corpus_t) :
  corpus <> [] ->
  existsb exceeds_threshold
    (values (dict_zip (keys corpus) (repeat Inf (List.length (keys corpus))))) = true.
Proof.
  intros Hc. rewrite values_dict_zip_repeat. destruct corpus; [congruence | reflexivity].
Qed.

Section Invariant.
Variable corpus : corpus_t.
Variable d : Q.
Variable P : dict Q * dict xfloat -> Prop.
Hypothesis HP : forall st st', P st -> iterate_pass corpus d st = Ok st' -> P st'.

(** A property kept by every pass holds of the state the loop exits in. *)
Lemma loop_invariant (fuel : nat) : forall st res,
  P st -> iterate_loop fuel corpus d st = Some (Ok res) ->
  exists ch, P (res, ch) /\ existsb exceeds_threshold (values ch) = false.
Proof.
  induction fuel as [|f IH]; intros st res Hst H; [discriminate|].
  rewrite iterate_loop_S in H.
  destruct (existsb exceeds_threshold (values (snd st))) eqn:E.
  - destruct (iterate_pass corpus d st) as [st'|e] eqn:Ep; [|discriminate].
    exact (IH st' res (HP st st' Hst Ep) H).
  - injection H as <-. exists (snd st). destruct st as [r ch]. split; assumption.
Qed.

End Invariant.

(** If every pass from a state with [P] succeeds into a state with [P],
    the loop never reports an error. *)
Lemma loop_no_error (corpus : corpus_t) (d : Q) (P : dict Q * dict xfloat -> Prop) :
  (forall st, P st -> exists st', iterate_pass corpus d st = Ok st' /\ P st') ->
  forall fuel st e, P st -> iterate_loop fuel corpus d st <> Some (Err e).
Proof.
  intros HP fuel. induction fuel as [|f IH]; intros st e Hst; [discriminate|].
  rewrite iterate_loop_S. destruct (existsb exceeds_threshold (values (snd st)));
    [|discriminate].
  destruct (HP st Hst) as [st' [Ep Hst']]. rewrite Ep. apply IH, Hst'.
Qed.

(** Both dicts of the loop state have the pages of the corpus as keys. *)
Definition shape (corpus : corpus_t) (st : dict Q * dict xfloat) : Prop :=
  keys (fst st) = keys corpus /\ keys (snd st) = keys corpus.

Lemma pass_shape (corpus : corpus_t) (d : Q) (st : dict Q * dict xfloat) :
  NoDup (keys corpus) -> corpus <> [] -> shape corpus st ->
  exists r' ch', iterate_pass corpus d st = Ok (r', ch') /\ shape corpus (r', ch') /\
    (forall j, (j < List.length corpus)%nat -> vec r' j == gs corpus d (vec (fst st)) j) /\
    (forall j, (j < List.length corpus)%nat -> exists q, nth j (values ch') (Fin 0) = Fin q /\
        q == Qabs (gs corpus d (vec (fst st)) j - vec (fst st) j)).
Proof.
  intros Hnd Hc [Hk1 Hk2]. destruct st as [r ch]. cbn [fst snd] in *.
  destruct (iterate_pass_ok corpus d r ch (vec r) Hnd Hc Hk1 Hk2 (fun j _ => Qeq_refl _))
    as [r' [ch' [Hp [Hkr' [Hkc' [Hr' Hch']]]]]].
  exists r', ch'. split; [exact Hp|]. split; [split; assumption|]. split; assumption.
Qed.

Lemma lookup_position {V : Type} (r : dict V) (p : page) (v dv : V) :
  lookup p r = Some v ->
  exists j, (j < List.length r)%nat /\ nth j (keys r) EmptyString = p /\
            nth j (values r) dv = v.
Proof.
  induction r as [|[a b] r IH]; simpl; intros H; [discriminate|].
  destruct (String.eqb_spec p a) as [->|Hne].
  - injection H as <-. exists O. split; [lia | split; reflexivity].
  - destruct (IH H) as [j [Hj [Hk Hv]]]. exists (S j). split; [lia | split; assumption].
Qed.

(** The loop test of line 124 is false only when every change is at most 0.001. *)
Lemma exceed_false_le (ch : dict xfloat) (j : nat) (q : Q) :
  existsb exceeds_threshold (values ch) = false -> (j < List.length ch)%nat ->
  nth j (values ch) (Fin 0) = Fin q -> q <= 1 # 1000.
Proof.
  intros He Hj Hq.
  assert (Hin : In (Fin q) (values ch))
    by (rewrite <- Hq; apply nth_In; unfold values; rewrite length_map; exact Hj).
  destruct (Qle_bool q (1 # 1000)) eqn:E; [apply Qle_bool_iff, E|].
  exfalso. assert (existsb exceeds_threshold (values ch) = true)
    by (apply existsb_exists; exists (Fin q); split; [exact Hin | cbn; rewrite E; reflexivity]).
  congruence.
Qed.

Lemma nth_repeat_in (v dv : Q) (m j : nat) : (j < m)%nat -> nth j (repeat v m) dv = v.
Proof.
  intros Hj. apply (repeat_spec m). apply nth_In. rewrite repeat_length. exact Hj.
Qed.

Lemma lower_bound_nonneg (corpus : corpus_t) (d : Q) :
  corpus <> [] -> d <= 1 -> 0 <= (1 - d) / qlen corpus.
Proof.
  intros Hc Hd. unfold Qdiv. apply Qmult_le_0_compat; [lra|].
  apply Qinv_le_0_compat, Qlt_le_weak, qlen_pos, Hc.
Qed.

(** Every page keeps at least the teleport share [(1 - d) / N] through a pass. *)
Lemma gs_upto_lower (corpus : corpus_t) (d : Q) (x : nat -> Q) :
  corpus <> [] -> 0 <= d -> d <= 1 ->
  (forall j, (j < List.length corpus)%nat -> (1 - d) / qlen corpus <= x j) ->
  forall k j, (j < List.length corpus)%nat -> (1 - d) / qlen corpus <= gs_upto corpus d k x j.
Proof.
  intros Hc Hd0 Hd1 Hx k. pose proof (lower_bound_nonneg corpus d Hc Hd1) as Hlb.
  induction k as [|k IH]; intros j Hj; cbn [gs_upto]; [apply Hx, Hj|].
  destruct (j =? k); [|apply IH, Hj].
  unfold gs_update.
  assert (0 <= d * sum_to (List.length corpus) (fun m => weight corpus m k * gs_upto corpus d k x m)).
  { apply Qmult_le_0_compat; [exact Hd0|]. apply sum_to_nonneg. intros m Hm.
    apply Qmult_le_0_compat; [apply weight_nonneg|]. apply (Qle_trans _ _ _ Hlb), IH, Hm. }
  lra.
Qed.

End LoopFacts.

(** * The claims *)

Module Claims.
Import DictFacts QFacts ListSums TransitionFacts TransitionModel CountFacts Sampling.
Import Termination Totality.
Local Open Scope string_scope.
Local Open Scope list_scope.

(** C5: on a valid graph, from a page with [L > 0] links [transition_model]
    gives [(1-d)/N + d/L] to each linked page and [(1-d)/N] to every other
    page; from a page without links it gives [1/N] to every page. *)
Theorem transition_model_probabilities (corpus : corpus_t) (pg : page) (d : Q) :
  valid_corpus corpus -> In pg (keys corpus) ->
  exists links dist,
    lookup pg corpus = Some links /\
    transition_model corpus pg d = Ok dist /\
    forall k, In k (keys corpus) ->
      exists v, lookup k dist = Some v /\
        v == match links with
             | [] => 1 / qlen corpus
             | _ => if mem k links then (1 - d) / qlen corpus + d / qlen links
                    else (1 - d) / qlen corpus
             end.
Proof.
  intros Hv Hin.
  destruct (lookup pg corpus) as [links|] eqn:El;
    [| exfalso; apply (proj2 (lookup_keys pg corpus) Hin), El].
  destruct (valid_links corpus pg links Hv (lookup_In _ _ _ El)) as [Hnd [_ Hsub]].
  destruct (transition_model_ok corpus pg d links El Hsub) as [dist [Ht [_ Hd]]].
  exists links, dist. split; [reflexivity|]. split; [exact Ht|].
  intros k Hk. destruct (Hd k Hk) as [v [Hl Hq]]. exists v. split; [exact Hl|].
  rewrite Hq. unfold tm_prob. destruct links as [|l0 ls]; [reflexivity|].
  rewrite cnt_nodup by exact Hnd.
  destruct (mem k (l0 :: ls)); unfold inject_Z; simpl; ring.
Qed.

Lemma transition_model_probabilities_witness :
  valid_corpus Examples.scenario_b /\ In "2.html" (keys Examples.scenario_b) /\
  exists links dist,
    lookup "2.html" Examples.scenario_b = Some links /\
    transition_model Examples.scenario_b "2.html" (85 # 100) = Ok dist /\
    forall k, In k (keys Examples.scenario_b) ->
      exists v, lookup k dist = Some v /\
        v == match links with
             | [] => 1 / qlen Examples.scenario_b
             | _ => if mem k links
                    then (1 - (85 # 100)) / qlen Examples.scenario_b + (85 # 100) / qlen links
                    else (1 - (85 # 100)) / qlen Examples.scenario_b
             end.
Proof.
  split; [reflexivity|]. split; [simpl; auto|].
  apply transition_model_probabilities; [reflexivity | simpl; auto].
Defined.

(** C6: on a valid non-empty graph, from any page, the distribution has
    exactly one entry per page of the corpus and its values sum to 1. *)
Theorem transition_model_sums_to_one (corpus : corpus_t) (pg : page) (d : Q) :
  valid_corpus corpus -> In pg (keys corpus) ->
  exists dist,
    transition_model corpus pg d = Ok dist /\
    keys dist = keys corpus /\
    List.length dist = List.length corpus /\
    sumQ (values dist) == 1.
Proof.
  intros Hv Hin.
  destruct (lookup pg corpus) as [links|] eqn:El;
    [| exfalso; apply (proj2 (lookup_keys pg corpus) Hin), El].
  destruct (valid_links corpus pg links Hv (lookup_In _ _ _ El)) as [_ [_ Hsub]].
  destruct (transition_model_ok corpus pg d links El Hsub) as [dist [Ht [Hk Hd]]].
  exists dist. split; [exact Ht|]. split; [exact Hk|]. split.
  - rewrite <- (length_map fst dist), <- (length_map fst corpus).
    fold (keys dist) (keys corpus). rewrite Hk. reflexivity.
  - rewrite (sumQ_values_lookup dist (keys corpus) (tm_prob corpus links d) Hk
               (valid_keys corpus Hv) Hd).
    apply tm_prob_sum; [apply valid_keys, Hv | apply (keys_nonempty _ pg Hin) | exact Hsub].
Qed.

Lemma transition_model_sums_to_one_witness :
  valid_corpus Examples.scenario_b /\ In "1.html" (keys Examples.scenario_b) /\
  exists dist,
    transition_model Examples.scenario_b "1.html" (85 # 100) = Ok dist /\
    keys dist = keys Examples.scenario_b /\
    List.length dist = List.length Examples.scenario_b /\
    sumQ (values dist) == 1.
Proof.
  split; [reflexivity|]. split; [simpl; auto|].
  apply transition_model_sums_to_one; [reflexivity | simpl; auto].
Defined.



(** C9: from a key of the graph, [transition_model] raises [KeyError]
    exactly when one of the page's links is not a key; so under the
    link-graph invariant the lookup failure is unreachable and the call
    returns a distribution, while a link outside the corpus makes it fail. *)
Theorem transition_model_keyerror_iff (corpus : corpus_t) (pg : page) (d : Q)
  (links : list page) :
  lookup pg corpus = Some links ->
  (transition_model corpus pg d = Err KeyError <->
   exists q, In q links /\ ~ In q (keys corpus)) /\
  (valid_corpus corpus -> exists dist, transition_model corpus pg d = Ok dist).
Proof.
  intros El. split.
  - split.
    + intros Hk. destruct (existsb (fun q => negb (mem q (keys corpus))) links) eqn:E.
      * apply existsb_exists in E. destruct E as [q [Hq Hm]].
        apply negb_true_iff, mem_false_not_In in Hm. exists q. split; assumption.
      * exfalso.
        destruct (transition_model_ok corpus pg d links El) as [dist [Ht _]].
        { intros q Hq. destruct (mem q (keys corpus)) eqn:Em; [apply mem_In, Em|].
          assert (Hx : existsb (fun q => negb (mem q (keys corpus))) links = true).
          { apply existsb_exists. exists q. rewrite Em. split; [exact Hq | reflexivity]. }
          congruence. }
        congruence.
    + intros Hq. apply (transition_model_keyerror corpus pg d links El Hq).
  - intros Hv.
    destruct (valid_links corpus pg links Hv (lookup_In _ _ _ El)) as [_ [_ Hsub]].
    destruct (transition_model_ok corpus pg d links El Hsub) as [dist [Ht _]].
    exists dist. exact Ht.
Qed.

Lemma transition_model_keyerror_iff_witness :
  lookup "a.html" Examples.dangling_ref = Some ["b.html"] /\
  (transition_model Examples.dangling_ref "a.html" (85 # 100) = Err KeyError <->
   exists q, In q ["b.html"] /\ ~ In q (keys Examples.dangling_ref)) /\
  (valid_corpus Examples.dangling_ref ->
   exists dist, transition_model Examples.dangling_ref "a.html" (85 # 100) = Ok dist).
Proof.
  split; [reflexivity|]. apply transition_model_keyerror_iff. reflexivity.
Defined.

(** C10: on a valid non-empty graph, for [n >= 1] and every outcome of the
    random source, the visit counters are non-negative and add up to
    [n - 1] (the page reached last is never counted), the result has one
    entry per page, each the page's count divided by [n], and the ranks
    add up to [(n - 1) / n]. *)
Theorem sample_pagerank_counts_n_minus_one (src : random_source) (corpus : corpus_t)
  (d : Q) (n : Z) :
  valid_corpus corpus -> corpus <> [] -> (1 <= n)%Z ->
  exists counts r,
    sample_counts src corpus d n = Ok counts /\
    keys counts = keys corpus /\
    Forall (fun c => (0 <= c)%Z) (values counts) /\
    sumZ (values counts) = (n - 1)%Z /\
    sample_pagerank src corpus d n = Ok r /\
    keys r = keys corpus /\
    values r = map (fun c => Qred (inject_Z c / inject_Z n)) (values counts) /\
    sumQ (values r) == inject_Z (n - 1) / inject_Z n.
Proof.
  intros Hv Hc Hn.
  destruct (sample_counts_ok src corpus d n Hv Hc) as [counts [Hs [Hk [Hnn Hsum]]]].
  rewrite Z2Nat.id in Hsum by lia.
  exists counts, (map (fun pc => (fst pc, Qred (inject_Z (snd pc) / inject_Z n))) counts).
  split; [exact Hs|]. split; [exact Hk|]. split; [exact Hnn|]. split; [exact Hsum|].
  split.
  - unfold sample_pagerank. rewrite Hs. cbn [bind]. apply divide_counts_ok. lia.
  - split; [rewrite keys_divided; exact Hk|]. split.
    + unfold values. rewrite !map_map. reflexivity.
    + rewrite sum_divided by lia. rewrite Hsum. reflexivity.
Qed.

Lemma sample_pagerank_counts_n_minus_one_witness :
  valid_corpus Examples.scenario_b /\ Examples.scenario_b <> [] /\ (1 <= 20)%Z /\
  exists counts r,
    sample_counts Examples.src0 Examples.scenario_b (85 # 100) 20 = Ok counts /\
    keys counts = keys Examples.scenario_b /\
    Forall (fun c => (0 <= c)%Z) (values counts) /\
    sumZ (values counts) = (20 - 1)%Z /\
    sample_pagerank Examples.src0 Examples.scenario_b (85 # 100) 20 = Ok r /\
    keys r = keys Examples.scenario_b /\
    values r = map (fun c => Qred (inject_Z c / inject_Z 20)) (values counts) /\
    sumQ (values r) == inject_Z (20 - 1) / inject_Z 20.
Proof.
  split; [reflexivity|]. split; [discriminate|]. split; [lia|].
  apply sample_pagerank_counts_n_minus_one; [reflexivity | discriminate | lia].
Defined.

(** C1 (defect): the loop of line 98 runs [n - 1] times, so [n] visits are
    never recorded and the ranks do not sum to 1: on the one-page graph
    with [n = 2] the only page gets rank 1/2 instead of 1. *)
Theorem sample_pagerank_scenario_c_n2 :
  sample_pagerank Examples.src0 Examples.scenario_c (85 # 100) 2
  = Ok [("a.html", 1 # 2)].
Proof. vm_compute. reflexivity. Qed.

(** C4 (defect): with [n = 1] the loop body never runs, so every page,
    the randomly chosen start page included, gets rank 0. *)
Theorem sample_pagerank_n1_all_zero (src : random_source) (corpus : corpus_t) (d : Q) :
  valid_corpus corpus -> corpus <> [] ->
  exists r, sample_pagerank src corpus d 1 = Ok r /\
    keys r = keys corpus /\ Forall (fun v => v == 0) (values r).
Proof.
  intros Hv Hc.
  destruct (sample_counts_ok src corpus d 1 Hv Hc) as [counts [Hs [Hk [Hnn Hsum]]]].
  simpl in Hsum.
  exists (map (fun pc => (fst pc, Qred (inject_Z (snd pc) / inject_Z 1))) counts).
  split; [unfold sample_pagerank; rewrite Hs; cbn [bind]; apply divide_counts_ok; lia|].
  split; [rewrite keys_divided; exact Hk|].
  pose proof (sumZ_zero_all _ Hnn Hsum) as H0.
  unfold values in *. rewrite map_map. apply Forall_map.
  apply Forall_map in H0. revert H0. apply Forall_impl.
  intros [p c] Hc0. cbn [snd] in *. subst c. rewrite Qred_correct. reflexivity.
Qed.

Lemma sample_pagerank_n1_all_zero_witness :
  valid_corpus Examples.scenario_a /\ Examples.scenario_a <> [] /\
  exists r, sample_pagerank Examples.src0 Examples.scenario_a (85 # 100) 1 = Ok r /\
    keys r = keys Examples.scenario_a /\ Forall (fun v => v == 0) (values r).
Proof.
  split; [reflexivity|]. split; [discriminate|].
  apply sample_pagerank_n1_all_zero; [reflexivity | discriminate].
Defined.

(** C2 (defect): a pass does not read a snapshot of the previous ranks.
    On scenario B with damping 0.85, the first pass first sets [1.html] to
    57/80 and then computes [2.html] from that new value, giving 1209/3200;
    the update from the previous ranks (1/2 each) would give 23/80. *)
Theorem scenario_b_pass_reads_updated_rank :
  iterate_init Examples.scenario_b
  = Ok ([("1.html", 1 # 2); ("2.html", 1 # 2)], [("1.html", Inf); ("2.html", Inf)]) /\
  iterate_pass Examples.scenario_b (85 # 100)
    ([("1.html", 1 # 2); ("2.html", 1 # 2)], [("1.html", Inf); ("2.html", Inf)])
  = Ok ([("1.html", 57 # 80); ("2.html", 1209 # 3200)],
        [("1.html", Fin (17 # 80)); ("2.html", Fin (391 # 3200))]) /\
  gs_update Examples.scenario_b (85 # 100) 1 (vec [("1.html", 57 # 80); ("2.html", 1 # 2)])
  == 1209 # 3200 /\
  spec_snapshot_rank Examples.scenario_b (85 # 100) [("1.html", 1 # 2); ("2.html", 1 # 2)] 1
  == 23 # 80.
Proof.
  split; [vm_compute; reflexivity|]. split; [vm_compute; reflexivity|].
  split; vm_compute; reflexivity.
Qed.







End Claims.

(** * Further properties of the program *)

Module Extras.
Import DictFacts QFacts Sampling Positional GaussSeidel IterativeCode Contraction Termination
  Totality CrawlFacts LoopFacts.
Local Open Scope string_scope.


(** X1: when the directory lists as [names] and [crawl] succeeds, its
    pages are exactly the entries of [names] that end in [.html], each once. *)
Theorem crawl_pages (findall_href : string -> list string) (dir : directory)
  (names : list string) (c : corpus_t) :
  listdir dir = Ok names -> crawl findall_href dir = Ok c ->
  NoDup (keys c) /\
  forall f, In f (keys c) <-> In f names /\ endswith f ".html" = true.
Proof.
  intros Hl Hc. destruct (crawl_ok_read findall_href dir c Hc) as [pages [Hp [Hk _]]].
  destruct (crawl_read_spec findall_href dir pages Hp) as [names' [Hl' [_ [Hnd [_ Hin]]]]].
  rewrite Hl in Hl'. injection Hl' as <-. rewrite Hk. split; [exact Hnd | exact Hin].
Qed.

Lemma crawl_pages_witness :
  listdir Examples.site = Ok ["index.html"; "notes.txt"; "about.html"] /\
  crawl Examples.site_hrefs Examples.site = Ok Examples.site_corpus /\
  NoDup (keys Examples.site_corpus) /\
  forall f, In f (keys Examples.site_corpus) <->
    In f ["index.html"; "notes.txt"; "about.html"] /\ endswith f ".html" = true.
Proof.
  assert (H1 : listdir Examples.site = Ok ["index.html"; "notes.txt"; "about.html"])
    by reflexivity.
  assert (H2 : crawl Examples.site_hrefs Examples.site = Ok Examples.site_corpus)
    by (vm_compute; reflexivity).
  split; [exact H1|]. split; [exact H2|].
  exact (crawl_pages Examples.site_hrefs Examples.site _ _ H1 H2).
Defined.

(** X12: [crawl] succeeds exactly when the directory can be listed and
    every listed entry ending in [.html] can be opened and read; otherwise
    it raises. *)
Theorem crawl_succeeds_iff (findall_href : string -> list string) (dir : directory) :
  (exists c, crawl findall_href dir = Ok c) <->
  exists names, listdir dir = Ok names /\
    forall f, In f names -> endswith f ".html" = true -> exists s, read_file dir f = Ok s.
Proof.
  split.
  - intros [c Hc]. destruct (crawl_ok_read findall_href dir c Hc) as [pages [Hp _]].
    destruct (crawl_read_spec findall_href dir pages Hp) as [names [Hl [Hr _]]].
    exists names. split; [exact Hl | exact Hr].
  - intros [names [Hl Hr]].
    destruct (crawl_read_total findall_href dir names Hl Hr) as [pages Hp].
    destruct (crawl_spec findall_href dir pages Hp) as [c [Hc _]]. exists c. exact Hc.
Qed.

(** X2: the links [crawl] keeps for a page are duplicate-free, and they are
    exactly the links extracted from the text of its file that are other
    pages of the result. *)
Theorem crawl_links (findall_href : string -> list string) (dir : directory)
  (c : corpus_t) (f : page) (links : list page) :
  crawl findall_href dir = Ok c -> lookup f c = Some links ->
  exists s, read_file dir f = Ok s /\ NoDup links /\
  forall q, In q links <-> In q (findall_href s) /\ q <> f /\ In q (keys c).
Proof. apply crawl_links_spec. Qed.

Lemma crawl_links_witness :
  crawl Examples.site_hrefs Examples.site = Ok Examples.site_corpus /\
  lookup "index.html" Examples.site_corpus = Some ["about.html"] /\
  exists s, read_file Examples.site "index.html" = Ok s /\ NoDup ["about.html"] /\
  forall q, In q ["about.html"] <->
    In q (Examples.site_hrefs s) /\ q <> "index.html" /\ In q (keys Examples.site_corpus).
Proof.
  assert (H1 : crawl Examples.site_hrefs Examples.site = Ok Examples.site_corpus)
    by (vm_compute; reflexivity).
  assert (H2 : lookup "index.html" Examples.site_corpus = Some ["about.html"])
    by reflexivity.
  split; [exact H1|]. split; [exact H2|].
  exact (crawl_links Examples.site_hrefs Examples.site Examples.site_corpus
           "index.html" ["about.html"] H1 H2).
Defined.

(** X3: what [crawl] returns is a valid corpus: unique pages, duplicate-free
    links, no self-links and no link to a page that is not in the corpus. *)
Theorem crawl_valid (findall_href : string -> list string) (dir : directory) (c : corpus_t) :
  crawl findall_href dir = Ok c -> valid_corpus c.
Proof. apply crawl_valid_spec. Qed.

Lemma crawl_valid_witness :
  crawl Examples.site_hrefs Examples.site = Ok Examples.site_corpus /\
  valid_corpus Examples.site_corpus.
Proof.
  assert (H1 : crawl Examples.site_hrefs Examples.site = Ok Examples.site_corpus)
    by (vm_compute; reflexivity).
  split; [exact H1 | exact (crawl_valid Examples.site_hrefs Examples.site _ H1)].
Defined.

(** X4: when the directory lists no [.html] entry, [main] fails with
    [IndexError] in [sample_pagerank], whatever the random source. *)
Theorem main_ranks_no_pages (findall_href : string -> list string) (dir : directory)
  (names : list string) (src : random_source) (fuel : nat) :
  listdir dir = Ok names ->
  (forall f, In f names -> endswith f ".html" = false) ->
  main_ranks findall_href dir src fuel = Some (Err IndexError).
Proof.
  intros Hl H.
  destruct (crawl_read_total findall_href dir names Hl) as [pages Hp].
  { intros f Hf Hh. rewrite (H f Hf) in Hh. discriminate. }
  destruct (crawl_read_spec findall_href dir pages Hp) as [names' [Hl' [_ [_ [_ Hin]]]]].
  rewrite Hl in Hl'. injection Hl' as <-.
  destruct (crawl_spec findall_href dir pages Hp) as [c [Hc [Hk _]]].
  assert (E : c = []).
  { destruct c as [|[f l] c]; [reflexivity|]. exfalso.
    assert (Hf : In f (keys ((f, l) :: c))) by (left; reflexivity).
    rewrite Hk, Hin in Hf. destruct Hf as [H1 H2]. rewrite (H f H1) in H2. discriminate. }
  subst c. unfold main_ranks. rewrite Hc. reflexivity.
Qed.

Lemma main_ranks_no_pages_witness :
  listdir Examples.no_pages = Ok ["notes.txt"; "html"] /\
  (forall f, In f ["notes.txt"; "html"] -> endswith f ".html" = false) /\
  main_ranks Examples.site_hrefs Examples.no_pages Examples.src0 O = Some (Err IndexError).
Proof.
  assert (H1 : listdir Examples.no_pages = Ok ["notes.txt"; "html"]) by reflexivity.
  assert (H2 : forall f, In f ["notes.txt"; "html"] -> endswith f ".html" = false)
    by (intros f [<-|[<-|[]]]; reflexivity).
  split; [exact H1|]. split; [exact H2|].
  exact (main_ranks_no_pages _ _ _ Examples.src0 O H1 H2).
Defined.

(** X5: when the directory lists an [.html] entry and every [.html] entry
    can be read, [main] computes both rank dicts once the iteration is given
    enough passes; both rank the [.html] entries, and the sampled ranks sum
    to 9999/10000. *)
Theorem main_ranks_pages (findall_href : string -> list string) (dir : directory)
  (names : list string) (src : random_source) :
  listdir dir = Ok names ->
  (exists f, In f names /\ endswith f ".html" = true) ->
  (forall f, In f names -> endswith f ".html" = true -> exists s, read_file dir f = Ok s) ->
  exists fuel sampled iterated,
    main_ranks findall_href dir src fuel = Some (Ok (sampled, iterated)) /\
    (forall p, In p (keys sampled) <-> In p names /\ endswith p ".html" = true) /\
    keys iterated = keys sampled /\
    sumQ (values sampled) == 9999 # 10000.
Proof.
  intros Hl [f0 Hf0] Hr.
  destruct (crawl_read_total findall_href dir names Hl Hr) as [pages Hp].
  destruct (crawl_read_spec findall_href dir pages Hp) as [names' [Hl' [_ [_ [_ Hin]]]]].
  rewrite Hl in Hl'. injection Hl' as <-.
  destruct (crawl_spec findall_href dir pages Hp) as [c [Hc [Hk _]]].
  pose proof (crawl_valid_spec findall_href dir c Hc) as Hv.
  assert (Hne : c <> []).
  { intros ->. apply Hin in Hf0. rewrite <- Hk in Hf0. exact Hf0. }
  destruct (sample_counts_ok src c DAMPING SAMPLES Hv Hne) as [counts [Hs [Hkc [_ Hsum]]]].
  destruct (iterate_terminates_keys c DAMPING Hv Hne ltac:(unfold DAMPING; lra)
              ltac:(unfold DAMPING; lra)) as [fuel [it [Hit Hkit]]].
  set (sampled := map (fun pc => (fst pc, Qred (inject_Z (snd pc) / inject_Z SAMPLES))) counts).
  assert (Hsp : sample_pagerank src c DAMPING SAMPLES = Ok sampled).
  { unfold sample_pagerank. rewrite Hs. cbn [bind]. apply divide_counts_ok.
    unfold SAMPLES. discriminate. }
  assert (Hks : keys sampled = keys c) by (unfold sampled; rewrite keys_divided; exact Hkc).
  exists fuel, sampled, it.
  split; [unfold main_ranks; rewrite Hc, Hsp, Hit; reflexivity|].
  split; [intros p; rewrite Hks, Hk; apply Hin|].
  split; [rewrite Hks; exact Hkit|].
  unfold sampled. rewrite sum_divided by (unfold SAMPLES; discriminate).
  rewrite Hsum. vm_compute. reflexivity.
Qed.

Lemma main_ranks_pages_witness :
  listdir Examples.site = Ok ["index.html"; "notes.txt"; "about.html"] /\
  (exists f, In f ["index.html"; "notes.txt"; "about.html"] /\ endswith f ".html" = true) /\
  (forall f, In f ["index.html"; "notes.txt"; "about.html"] -> endswith f ".html" = true ->
     exists s, read_file Examples.site f = Ok s) /\
  exists fuel sampled iterated,
    main_ranks Examples.site_hrefs Examples.site Examples.src0 fuel
    = Some (Ok (sampled, iterated)) /\
    (forall p, In p (keys sampled) <->
       In p ["index.html"; "notes.txt"; "about.html"] /\ endswith p ".html" = true) /\
    keys iterated = keys sampled /\
    sumQ (values sampled) == 9999 # 10000.
Proof.
  assert (H1 : listdir Examples.site = Ok ["index.html"; "notes.txt"; "about.html"])
    by reflexivity.
  assert (H2 : exists f, In f ["index.html"; "notes.txt"; "about.html"] /\
                         endswith f ".html" = true)
    by (exists "index.html"; split; [left; reflexivity | reflexivity]).
  assert (H3 : forall f, In f ["index.html"; "notes.txt"; "about.html"] ->
                 endswith f ".html" = true -> exists s, read_file Examples.site f = Ok s)
    by (intros f _ _; exists f; reflexivity).
  split; [exact H1|]. split; [exact H2|]. split; [exact H3|].
  exact (main_ranks_pages _ _ _ Examples.src0 H1 H2 H3).
Defined.

(** X6: [iterate_pagerank] never fails on a non-empty corpus with distinct
    pages, whatever the damping factor, even when links leave the corpus. *)
Theorem iterate_pagerank_no_error (fuel : nat) (corpus : corpus_t) (d : Q) (e : exn) :
  NoDup (keys corpus) -> corpus <> [] -> iterate_pagerank fuel corpus d <> Some (Err e).
Proof.
  intros Hnd Hc. unfold iterate_pagerank. rewrite iterate_init_ok by exact Hc.
  apply (loop_no_error corpus d (shape corpus)).
  - intros st Hst. destruct (pass_shape corpus d st Hnd Hc Hst) as [r' [ch' [Hp [Hs _]]]].
    exists (r', ch'). split; assumption.
  - split; apply keys_dict_zip_repeat.
Qed.

Lemma iterate_pagerank_no_error_witness :
  NoDup (keys Examples.dangling_ref) /\ Examples.dangling_ref <> [] /\
  iterate_pagerank 5 Examples.dangling_ref 3 <> Some (Err KeyError).
Proof.
  assert (H1 : NoDup (keys Examples.dangling_ref))
    by (constructor; [intros [] | constructor]).
  assert (H2 : Examples.dangling_ref <> []) by discriminate.
  split; [exact H1|]. split; [exact H2|].
  exact (iterate_pagerank_no_error 5 Examples.dangling_ref 3 KeyError H1 H2).
Defined.

(** X7: with damping factor 0, [iterate_pagerank] stops after one pass and
    gives every page the rank [1 / N]. *)
Theorem iterate_pagerank_damping_zero (corpus : corpus_t) :
  NoDup (keys corpus) -> corpus <> [] ->
  exists r, iterate_pagerank 2 corpus 0 = Some (Ok r) /\ keys r = keys corpus /\
    forall p q, lookup p r = Some q -> q == 1 / qlen corpus.
Proof.
  intros Hnd Hc. unfold iterate_pagerank. rewrite iterate_init_ok by exact Hc.
  rewrite iterate_loop_S. cbn [snd]. rewrite init_changes_exceed by exact Hc.
  set (r0 := dict_zip (keys corpus) (repeat (Qred (1 / qlen corpus)) (List.length (keys corpus)))).
  set (ch0 := dict_zip (keys corpus) (repeat Inf (List.length (keys corpus)))).
  assert (Hs0 : shape corpus (r0, ch0)) by (split; apply keys_dict_zip_repeat).
  destruct (pass_shape corpus 0 (r0, ch0) Hnd Hc Hs0) as [r1 [ch1 [Hp [[Hk1 Hc1] [Hr1 Hch1]]]]].
  cbn [fst snd] in *. rewrite Hp.
  assert (Hg : forall j, (j < List.length corpus)%nat -> gs corpus 0 (vec r0) j == 1 / qlen corpus).
  { intros j Hj. rewrite (gs_characterization corpus 0 (vec r0) j Hj). unfold gs_update.
    unfold Qdiv. ring. }
  assert (Hx0 : forall j, (j < List.length corpus)%nat -> vec r0 j == 1 / qlen corpus).
  { intros j Hj. unfold vec, r0. rewrite values_dict_zip_repeat, nth_repeat_in
      by (rewrite length_keys; exact Hj).
    apply Qred_correct. }
  exists r1. rewrite iterate_loop_S. cbn [snd fst]. rewrite no_exceed.
  - split; [reflexivity|]. split; [exact Hk1|]. intros p q Hl.
    destruct (lookup_position r1 p q 0 Hl) as [j [Hj [_ Hq]]].
    rewrite <- length_keys, Hk1, length_keys in Hj.
    rewrite <- Hq. change (nth j (values r1) 0) with (vec r1 j). rewrite (Hr1 j Hj). apply Hg, Hj.
  - intros j Hj. rewrite <- length_keys, Hc1, length_keys in Hj.
    destruct (Hch1 j Hj) as [q [Hq Hqe]]. exists q. split; [exact Hq|].
    rewrite Hqe, (Hg j Hj), (Hx0 j Hj).
    setoid_replace (1 / qlen corpus - 1 / qlen corpus) with 0 by ring.
    vm_compute. discriminate.
Qed.

Lemma iterate_pagerank_damping_zero_witness :
  NoDup (keys Examples.scenario_b) /\ Examples.scenario_b <> [] /\
  exists r, iterate_pagerank 2 Examples.scenario_b 0 = Some (Ok r) /\
    keys r = keys Examples.scenario_b /\
    forall p q, lookup p r = Some q -> q == 1 / qlen Examples.scenario_b.
Proof.
  assert (H1 : NoDup (keys Examples.scenario_b)).
  { constructor; [intros [H|[]]; discriminate | constructor; [intros [] | constructor]]. }
  assert (H2 : Examples.scenario_b <> []) by discriminate.
  split; [exact H1|]. split; [exact H2|].
  exact (iterate_pagerank_damping_zero Examples.scenario_b H1 H2).
Defined.

(** X8: for a damping factor in [0, 1], every rank [iterate_pagerank]
    returns is at least [(1 - d) / N], and it ranks the pages of the corpus. *)
Theorem iterate_pagerank_lower_bound (fuel : nat) (corpus : corpus_t) (d : Q) (r : dict Q) :
  NoDup (keys corpus) -> corpus <> [] -> 0 <= d -> d <= 1 ->
  iterate_pagerank fuel corpus d = Some (Ok r) ->
  keys r = keys corpus /\ forall p q, lookup p r = Some q -> (1 - d) / qlen corpus <= q.
Proof.
  intros Hnd Hc Hd0 Hd1 H. unfold iterate_pagerank in H. rewrite iterate_init_ok in H by exact Hc.
  set (P := fun st : dict Q * dict xfloat => shape corpus st /\
              forall j, (j < List.length corpus)%nat -> (1 - d) / qlen corpus <= vec (fst st) j).
  assert (HP : forall st st', P st -> iterate_pass corpus d st = Ok st' -> P st').
  { intros st st' [Hs Hl] Ep.
    destruct (pass_shape corpus d st Hnd Hc Hs) as [r' [ch' [Hp [Hs' [Hr' _]]]]].
    rewrite Ep in Hp. injection Hp as ->. split; [exact Hs'|].
    intros j Hj. cbn [fst]. rewrite (Hr' j Hj). unfold gs.
    apply gs_upto_lower; assumption. }
  assert (H0 : P (dict_zip (keys corpus) (repeat (Qred (1 / qlen corpus)) (List.length (keys corpus))),
                  dict_zip (keys corpus) (repeat Inf (List.length (keys corpus))))).
  { split; [split; apply keys_dict_zip_repeat|]. intros j Hj. cbn [fst]. unfold vec.
    rewrite values_dict_zip_repeat, nth_repeat_in by (rewrite length_keys; exact Hj).
    rewrite Qred_correct. unfold Qdiv. apply Qmult_le_compat_r; [lra|].
    apply Qinv_le_0_compat, Qlt_le_weak, qlen_pos, Hc. }
  destruct (loop_invariant corpus d P HP fuel _ r H0 H) as [ch [[[Hk _] Hlb] _]].
  cbn [fst] in *. split; [exact Hk|]. intros p q Hl.
  destruct (lookup_position r p q 0 Hl) as [j [Hj [_ Hq]]].
  rewrite <- length_keys, Hk, length_keys in Hj. rewrite <- Hq. apply Hlb, Hj.
Qed.

Lemma iterate_pagerank_lower_bound_witness :
  NoDup (keys Examples.dangling_ref) /\ Examples.dangling_ref <> [] /\
  0 <= 85 # 100 /\ 85 # 100 <= 1 /\
  iterate_pagerank 3 Examples.dangling_ref (85 # 100) = Some (Ok [("a.html", 3 # 20)]) /\
  keys [("a.html", 3 # 20)] = keys Examples.dangling_ref /\
  forall p q, lookup p [("a.html", 3 # 20)] = Some q ->
    (1 - (85 # 100)) / qlen Examples.dangling_ref <= q.
Proof.
  assert (H1 : NoDup (keys Examples.dangling_ref))
    by (constructor; [intros [] | constructor]).
  assert (H2 : Examples.dangling_ref <> []) by discriminate.
  assert (H3 : 0 <= 85 # 100) by lra.
  assert (H4 : 85 # 100 <= 1) by lra.
  assert (H5 : iterate_pagerank 3 Examples.dangling_ref (85 # 100)
               = Some (Ok [("a.html", 3 # 20)])) by (vm_compute; reflexivity).
  split; [exact H1|]. split; [exact H2|]. split; [exact H3|]. split; [exact H4|].
  split; [exact H5|].
  exact (iterate_pagerank_lower_bound 3 Examples.dangling_ref (85 # 100) _ H1 H2 H3 H4 H5).
Defined.

(** X9: the ranks [iterate_pagerank] returns are the output of a pass in
    which no rank moved by more than 0.001. *)
Theorem iterate_pagerank_last_pass (fuel : nat) (corpus : corpus_t) (d : Q) (r : dict Q) :
  NoDup (keys corpus) -> corpus <> [] ->
  iterate_pagerank fuel corpus d = Some (Ok r) ->
  exists r0 ch0 ch, keys r0 = keys corpus /\ keys ch0 = keys corpus /\
    iterate_pass corpus d (r0, ch0) = Ok (r, ch) /\
    forall p q q0, lookup p r = Some q -> lookup p r0 = Some q0 -> Qabs (q - q0) <= 1 # 1000.
Proof.
  intros Hnd Hc H. unfold iterate_pagerank in H. rewrite iterate_init_ok in H by exact Hc.
  set (P := fun st : dict Q * dict xfloat => shape corpus st /\
              (existsb exceeds_threshold (values (snd st)) = false ->
               exists r0 ch0, shape corpus (r0, ch0) /\ iterate_pass corpus d (r0, ch0) = Ok st)).
  assert (HP : forall st st', P st -> iterate_pass corpus d st = Ok st' -> P st').
  { intros st st' [Hs _] Ep.
    destruct (pass_shape corpus d st Hnd Hc Hs) as [r' [ch' [Hp [Hs' _]]]].
    rewrite Ep in Hp. injection Hp as ->. split; [exact Hs'|]. intros _.
    destruct st as [r0 ch0]. exists r0, ch0. split; [exact Hs | exact Ep]. }
  assert (H0 : P (dict_zip (keys corpus) (repeat (Qred (1 / qlen corpus)) (List.length (keys corpus))),
                  dict_zip (keys corpus) (repeat Inf (List.length (keys corpus))))).
  { split; [split; apply keys_dict_zip_repeat|]. cbn [snd].
    rewrite init_changes_exceed by exact Hc. discriminate. }
  destruct (loop_invariant corpus d P HP fuel _ r H0 H) as [ch [[_ Hlast] Hex]].
  destruct (Hlast Hex) as [r0 [ch0 [[Hk0 Hc0] Ep]]]. cbn [fst snd] in *.
  exists r0, ch0, ch. split; [exact Hk0|]. split; [exact Hc0|]. split; [exact Ep|].
  destruct (iterate_pass_in_place corpus d r0 ch0 Hnd Hc Hk0 Hc0)
    as [r' [ch' [Ep' [Hkr' [Hkc' Hi]]]]].
  rewrite Ep in Ep'. injection Ep' as <- <-.
  intros p q q0 Hl Hl0. destruct (lookup_position r p q 0 Hl) as [j [Hj [Hp Hq]]].
  assert (HjN : (j < List.length corpus)%nat)
    by (rewrite <- length_keys, Hkr', length_keys in Hj; exact Hj).
  assert (Hq0 : q0 = vec r0 j).
  { assert (Hnd0 : NoDup (keys r0)) by (rewrite Hk0; exact Hnd).
    assert (Hj0 : (j < List.length r0)%nat) by (rewrite <- length_keys, Hk0, length_keys; exact HjN).
    pose proof (lookup_nth_keys r0 j 0 Hnd0 Hj0) as E.
    rewrite Hk0, <- Hkr', Hp, Hl0 in E. injection E as E. exact E. }
  destruct (Hi j HjN) as [_ [qq [Hqq Hqe]]].
  assert (Hjc : (j < List.length ch)%nat) by (rewrite <- length_keys, Hkc', length_keys; exact HjN).
  pose proof (exceed_false_le ch j qq Hex Hjc Hqq) as Hle.
  subst q q0. change (nth j (values r) 0) with (vec r j). rewrite <- Hqe. exact Hle.
Qed.

Lemma iterate_pagerank_last_pass_witness :
  NoDup (keys Examples.dangling_ref) /\ Examples.dangling_ref <> [] /\
  iterate_pagerank 3 Examples.dangling_ref (85 # 100) = Some (Ok [("a.html", 3 # 20)]) /\
  exists r0 ch0 ch, keys r0 = keys Examples.dangling_ref /\
    keys ch0 = keys Examples.dangling_ref /\
    iterate_pass Examples.dangling_ref (85 # 100) (r0, ch0) = Ok ([("a.html", 3 # 20)], ch) /\
    forall p q q0, lookup p [("a.html", 3 # 20)] = Some q -> lookup p r0 = Some q0 ->
      Qabs (q - q0) <= 1 # 1000.
Proof.
  assert (H1 : NoDup (keys Examples.dangling_ref))
    by (constructor; [intros [] | constructor]).
  assert (H2 : Examples.dangling_ref <> []) by discriminate.
  assert (H3 : iterate_pagerank 3 Examples.dangling_ref (85 # 100)
               = Some (Ok [("a.html", 3 # 20)])) by (vm_compute; reflexivity).
  split; [exact H1|]. split; [exact H2|]. split; [exact H3|].
  exact (iterate_pagerank_last_pass 3 Examples.dangling_ref (85 # 100) _ H1 H2 H3).
Defined.



(** X11: a negative [n] is accepted: the sampling loop never runs and every
    page gets rank 0. *)
Theorem sample_pagerank_negative_n (src : random_source) (corpus : corpus_t) (d : Q) (n : Z) :
  valid_corpus corpus -> corpus <> [] -> (n < 0)%Z ->
  exists r, sample_pagerank src corpus d n = Ok r /\
    keys r = keys corpus /\ Forall (fun v => v == 0) (values r).
Proof.
  intros Hv Hc Hn.
  destruct (sample_counts_ok src corpus d n Hv Hc) as [counts [Hs [Hk [Hnn Hsum]]]].
  replace (Z.to_nat (n - 1)) with O in Hsum by lia.
  exists (map (fun pc => (fst pc, Qred (inject_Z (snd pc) / inject_Z n))) counts).
  split; [unfold sample_pagerank; rewrite Hs; cbn [bind]; apply divide_counts_ok; lia|].
  split; [rewrite keys_divided; exact Hk|].
  pose proof (sumZ_zero_all _ Hnn Hsum) as H0.
  unfold values in *. rewrite map_map. apply Forall_map.
  apply Forall_map in H0. revert H0. apply Forall_impl.
  intros [p c] Hc0. cbn [snd] in *. subst c. rewrite Qred_correct.
  change (inject_Z 0) with 0. unfold Qdiv. apply Qmult_0_l.
Qed.

Lemma sample_pagerank_negative_n_witness :
  valid_corpus Examples.scenario_a /\ Examples.scenario_a <> [] /\ (-3 < 0)%Z /\
  exists r, sample_pagerank Examples.src0 Examples.scenario_a (85 # 100) (-3) = Ok r /\
    keys r = keys Examples.scenario_a /\ Forall (fun v => v == 0) (values r).
Proof.
  assert (H1 : valid_corpus Examples.scenario_a) by (vm_compute; reflexivity).
  assert (H2 : Examples.scenario_a <> []) by discriminate.
  assert (H3 : (-3 < 0)%Z) by lia.
  split; [exact H1|]. split; [exact H2|]. split; [exact H3|].
  exact (sample_pagerank_negative_n Examples.src0 Examples.scenario_a (85 # 100) (-3) H1 H2 H3).
Defined.

End Extras.
